(** * MatchPlay / Slack interface: a shallow embedding and its properties

    Two Python modules are covered.

    - [monitor_tournament.py]: the module-level tracking state, [load_config]
      and [extract_tournament_id].  The polling loop that uses the tracking
      state is not part of the available source; it is modelled from the
      specification (module [Monitor]).
    - [slack_notifier.py]: [SlackNotifier.send_message] and the three
      formatters [notify_round_start], [notify_game_results] and
      [notify_tournament_standings].

    Conventions.  A Python [str] reaching [extract_tournament_id] is the
    list of its code points; which code points are decimal digits, and the
    longest digit run [int] converts, are parameters of the interpreter.
    Python integers are unbounded and are modelled by [Z].
    Timestamps are [Z], counted in microseconds (the resolution of
    [datetime]).  Code that can raise returns a [Result]. *)

From Stdlib Require Import ZArith Lia Ascii String List Permutation Sorted.
From Stdlib Require Import DecimalString.
From stdpp Require Import gmap strings list.

Open Scope Z_scope.

Set Warnings "-clear-no-such-hyp".

(** ** Exceptions and results *)

Inductive PyExc : Type :=
  | AttributeError
  | ValueError
  | TypeError
  | KeyError
  | FileNotFoundError
  | PermissionError
  | IsADirectoryError
  | JSONDecodeError
  | UnicodeDecodeError
  | RecursionError
  | UnboundLocalError.

Inductive Result (A : Type) : Type :=
  | Return (a : A)
  | Raise (e : PyExc).

Arguments Return {A} a.
Arguments Raise {A} e.

Global Instance Result_ret : MRet Result := fun A a => Return a.

Global Instance Result_bind : MBind Result := fun A B k r =>
  match r with
  | Return a => k a
  | Raise e => Raise e
  end.

(** [try: body except (e1, e2, ...): handler] *)
Definition try_except {A} (body : Result A) (caught : PyExc -> bool)
    (handler : PyExc -> Result A) : Result A :=
  match body with
  | Return a => Return a
  | Raise e => if caught e then handler e else Raise e
  end.

Definition raises {A} (r : Result A) : Prop :=
  match r with
  | Return _ => False
  | Raise _ => True
  end.

(** ** Python values reaching a function whose annotation is not enforced *)

Inductive PyValue : Type :=
  | PyNone
  | PyBool (b : bool)
  | PyInt (z : Z)
  | PyStr (s : list Z)
  | PyBytes (b : list Byte.byte)
  | PyObject (type_name : string).

(** ** URL identifier extraction ([monitor_tournament.py], lines 54-62) *)

Module Url.

(** The code points of a text written with 8-bit characters, such as the
    pattern and the URLs of the examples. *)
Definition code_points (s : string) : list Z :=
  map (fun c => Z.of_nat (nat_of_ascii c)) (list_ascii_of_string s).

(** The entries of the Unicode database for the ASCII digits and for the
    Arabic-Indic digits U+0660 to U+0669. *)
Definition basic_decimal (c : Z) : option Z :=
  if (48 <=? c) && (c <=? 57) then Some (c - 48)
  else if (1632 <=? c) && (c <=? 1641) then Some (c - 1632)
  else None.

Section WithInterpreter.

(** The decimal digit value the interpreter's Unicode database gives a code
    point, [None] when the code point is not a decimal digit: [\d] in a
    [str] pattern matches the code points that have one, and [int] reads
    them by that value. *)
Variable decimal : Z -> option Z.

(** [sys.get_int_max_str_digits()]: the longest digit run [int] converts,
    0 for no limit (4300 unless configured; 0 in interpreters that predate
    the limit). *)
Variable max_str_digits : Z.

Definition is_digit (c : Z) : bool :=
  match decimal c with
  | Some _ => true
  | None => false
  end.

(** The longest run of decimal digits a text starts with: what the greedy
    [\d+] consumes. *)
Fixpoint take_digits (s : list Z) : list Z :=
  match s with
  | [] => []
  | c :: s' => if is_digit c then c :: take_digits s' else []
  end.

Fixpoint strip_prefix (p s : list Z) : option (list Z) :=
  match p, s with
  | [], _ => Some s
  | a :: p', b :: s' => if a =? b then strip_prefix p' s' else None
  | _ :: _, [] => None
  end.

Definition tournaments_prefix : list Z := code_points "/tournaments/".

(** An attempt of the pattern [/tournaments/(\d+)] anchored at the start of
    [s]; the result is group 1. *)
Definition match_here (s : list Z) : option (list Z) :=
  match strip_prefix tournaments_prefix s with
  | Some rest =>
      match take_digits rest with
      | [] => None
      | ds => Some ds
      end
  | None => None
  end.

(** [re.search]: the attempt is made at every position, left to right, and
    the first success is returned. *)
Fixpoint search (s : list Z) : option (list Z) :=
  match match_here s with
  | Some ds => Some ds
  | None =>
      match s with
      | [] => None
      | _ :: s' => search s'
      end
  end.

(** [re.search(r'/tournaments/(\d+)', v)]: a value that is not a [str]
    makes the call raise [TypeError]. *)
Definition re_search (v : PyValue) : Result (option (list Z)) :=
  match v with
  | PyStr s => Return (search s)
  | _ => Raise TypeError
  end.

Definition digit_value (c : Z) : Z := default 0 (decimal c).

Fixpoint int_acc (acc : Z) (s : list Z) : Z :=
  match s with
  | [] => acc
  | c :: s' => int_acc (10 * acc + digit_value c) s'
  end.

(** The digit run is one [int] converts: there is no limit, or the run is
    not longer than the limit. *)
Definition within_limit (ds : list Z) : bool :=
  (max_str_digits <=? 0) || (Z.of_nat (length ds) <=? max_str_digits).

(** [int(match.group(1))] on a run of decimal digits: the value in base
    ten, or [ValueError] when the run is longer than the limit. *)
Definition int_of_digits (ds : list Z) : Result Z :=
  if within_limit ds then Return (int_acc 0 ds) else Raise ValueError.

Definition caught (e : PyExc) : bool :=
  match e with
  | AttributeError | ValueError | TypeError => true
  | _ => false
  end.

Definition extract_tournament_id (tournament_url : PyValue) : Result (option Z) :=
  try_except
    (m ← re_search tournament_url;
     match m with
     | Some g1 => n ← int_of_digits g1; Return (Some n)
     | None => Return None
     end)
    caught
    (fun _ => Return None).

(** The specification's wording, stated independently of [search]: the URL
    contains, at some position, the text [/tournaments/] followed by a
    non-empty maximal run of digits, and no earlier position starts such a
    text. *)
Definition all_digits (s : list Z) : Prop :=
  forall c, c ∈ s -> is_digit c = true.

Definition no_leading_digit (s : list Z) : Prop :=
  match s with
  | [] => True
  | c :: _ => is_digit c = false
  end.

Definition matches_at (s ds : list Z) : Prop :=
  exists rest,
    s = tournaments_prefix ++ ds ++ rest
    /\ ds <> [] /\ all_digits ds /\ no_leading_digit rest.

Definition first_match (url ds : list Z) : Prop :=
  exists pre suf,
    url = pre ++ suf
    /\ matches_at suf ds
    /\ forall p1 p2 ds', pre = p1 ++ p2 -> p2 <> [] ->
         ~ matches_at (p2 ++ suf) ds'.

Definition no_match (url : list Z) : Prop :=
  forall pre suf ds, url = pre ++ suf -> ~ matches_at suf ds.

End WithInterpreter.

End Url.

(** ** Configuration loading ([monitor_tournament.py], lines 35-51) *)

Module Config.

#[warnings="-register-all"]
Inductive Json : Type :=
  | JNull
  | JBool (b : bool)
  | JNumber (n : Z)
  | JString (s : string)
  | JArray (items : list Json)
  | JObject (members : list (string * Json)).

Inductive LogRecord : Type :=
  | LogError (msg : string) (cause : PyExc).

(** The built-in default structure of lines 44-51. *)
Definition default_config : Json :=
  JObject
    [ ("api", JObject [ ("poll_interval_seconds", JNumber 300) ]);
      ("notifications",
        JObject [ ("standings_update_interval_minutes", JNumber 30) ]) ].

Definition caught (e : PyExc) : bool :=
  match e with
  | FileNotFoundError | JSONDecodeError => true
  | _ => false
  end.

Section WithParser.

(** [json.load] on the text of the file: the standard library's parser,
    which either returns a value or raises. *)
Variable json_load : string -> Result Json.

(** [open_config] is what [open(config_path, 'r')] followed by reading
    yields: the text of [config.json], or the exception raised.  The
    log lines written are returned with the result. *)
Definition load_config (open_config : Result string)
    : Result Json * list LogRecord :=
  match (config_file ← open_config; json_load config_file) with
  | Return cfg => (Return cfg, [])
  | Raise e =>
      if caught e
      then (Return default_config, [LogError "Failed to load config file" e])
      else (Raise e, [])
  end.

End WithParser.

End Config.

(** ** The polling loop *)

Module Monitor.

(** Durations in microseconds. *)
Definition minute : Z := 60000000.
Definition hour : Z := 60 * minute.

(** Modelled from the spec: the status of the tournament the polling loop
    reads (the loop is missing from the source), not started, in progress or
    completed. *)
Inductive TournamentStatus : Type := NotStarted | InProgress | Completed.

(** The global tracking variables of [monitor_tournament.py], lines 28-32. *)
Record State : Type := mkState {
  last_standings_update : Z;
  processed_rounds : gset Z;
  processed_games : gset Z;
  tournament_status : option TournamentStatus
}.

(** Module initialisation at time [now]: line 29 is
    [datetime.now() - timedelta(hours=1)], lines 30-32 are two empty sets
    and [None].  The clock is the only input. *)
Definition initial_state (now : Z) : State :=
  {| last_standings_update := now - hour;
     processed_rounds := ∅;
     processed_games := ∅;
     tournament_status := None |}.

(** The two settings of the default configuration (lines 44-51), which the
    loop reads. *)
Record Settings : Type := mkSettings {
  poll_interval_seconds : Z;
  standings_update_interval_minutes : Z
}.

Definition default_settings : Settings :=
  {| poll_interval_seconds := 300; standings_update_interval_minutes := 30 |}.

Definition standings_update_interval (cfg : Settings) : Z :=
  standings_update_interval_minutes cfg * minute.

(** Modelled from the spec: the records the tournament API client returns
    (the client is missing from the source): round [{id, status,
    assignments}], game [{id, status, machine, players}], standings
    [{position, name, points, gamesPlayed}]. *)
Inductive RoundStatus : Type := RoundUpcoming | RoundActive | RoundFinished.
Inductive GameStatus : Type := GamePending | GameCompleted.

Record Round : Type := mkRound {
  round_id : Z;
  round_status : RoundStatus;
  round_assignments : list (string * string)
}.

Record GamePlayer : Type := mkGamePlayer {
  gp_name : string;
  gp_score : Z;
  gp_position : Z
}.

Record Game : Type := mkGame {
  game_id : Z;
  game_status : GameStatus;
  game_machine : string;
  game_players : list GamePlayer
}.

Record Standing : Type := mkStanding {
  st_position : Z;
  st_name : string;
  st_points : Z;
  st_games_played : Z
}.

Record Snapshot : Type := mkSnapshot {
  snap_status : TournamentStatus;
  snap_rounds : list Round;
  snap_games : list Game
}.

(** Modelled from the spec: what one iteration of the missing polling loop
    meets: the wall clock, the result of fetching status, rounds and games
    ([None]: the fetch failed), and the result a standings fetch gives in
    this iteration ([None]: it fails). *)
Record Poll : Type := mkPoll {
  poll_now : Z;
  poll_fetch : option Snapshot;
  poll_standings : option (list Standing)
}.

(** Modelled from the spec: the notifications the missing polling loop
    invokes. *)
Inductive Notification : Type :=
  | RoundStart (r : Round)
  | GameResult (g : Game)
  | StandingsUpdate (sent_at : Z) (standings : list Standing).

Definition round_is_active (r : Round) : bool :=
  match round_status r with RoundActive => true | _ => false end.

Definition game_is_completed (g : Game) : bool :=
  match game_status g with GameCompleted => true | _ => false end.

(** Modelled from the spec: the polling loop of [monitor_tournament.py]
    (the source stops after [extract_tournament_id]).  Step 2: for each
    round not in SeenRounds whose status is active, invoke the round-start
    notification and add the round identifier to SeenRounds. *)
Fixpoint announce_rounds (seen : gset Z) (rounds : list Round)
    : gset Z * list Notification :=
  match rounds with
  | [] => (seen, [])
  | r :: rest =>
      if negb (bool_decide (round_id r ∈ seen)) && round_is_active r
      then
        let '(seen', sent) := announce_rounds ({[round_id r]} ∪ seen) rest in
        (seen', RoundStart r :: sent)
      else announce_rounds seen rest
  end.

(** Modelled from the spec: step 3 of the polling loop, for each game not
    in SeenGames whose status is completed. *)
Fixpoint announce_games (seen : gset Z) (games : list Game)
    : gset Z * list Notification :=
  match games with
  | [] => (seen, [])
  | g :: rest =>
      if negb (bool_decide (game_id g ∈ seen)) && game_is_completed g
      then
        let '(seen', sent) := announce_games ({[game_id g]} ∪ seen) rest in
        (seen', GameResult g :: sent)
      else announce_games seen rest
  end.

(** Modelled from the spec: step 4 of the polling loop.  If
    [now - LastStandingsUpdate >= standings_update_interval]: fetch
    standings, invoke the standings notification, set
    [LastStandingsUpdate = now].  A failed fetch skips the rest. *)
Definition standings_step (cfg : Settings) (last : Z) (p : Poll)
    : Z * list Notification :=
  if standings_update_interval cfg <=? poll_now p - last
  then
    match poll_standings p with
    | Some standings => (poll_now p, [StandingsUpdate (poll_now p) standings])
    | None => (last, [])
    end
  else (last, []).

(** Modelled from the spec: one iteration of the polling loop (steps 1 to
    4).  A failed fetch is logged and the remaining steps of the cycle are
    skipped. *)
Definition iteration (cfg : Settings) (s : State) (p : Poll)
    : State * list Notification :=
  match poll_fetch p with
  | None => (s, [])
  | Some snap =>
      let '(rounds', sent_r) := announce_rounds (processed_rounds s) (snap_rounds snap) in
      let '(games', sent_g) := announce_games (processed_games s) (snap_games snap) in
      let '(last', sent_s) := standings_step cfg (last_standings_update s) p in
      ({| last_standings_update := last';
          processed_rounds := rounds';
          processed_games := games';
          tournament_status := Some (snap_status snap) |},
       sent_r ++ sent_g ++ sent_s)
  end.

Definition is_terminal (s : State) : bool :=
  match tournament_status s with
  | Some Completed => true
  | _ => false
  end.

(** Modelled from the spec: the loop runs one iteration per poll and
    terminates when the tournament status becomes completed (step 5 sleeps
    otherwise).  The result is the final state and the notifications of
    each iteration that ran. *)
Fixpoint run (cfg : Settings) (s : State) (polls : list Poll)
    : State * list (list Notification) :=
  match polls with
  | [] => (s, [])
  | p :: rest =>
      let '(s', sent) := iteration cfg s p in
      if is_terminal s' then (s', [sent])
      else
        let '(s'', later) := run cfg s' rest in
        (s'', sent :: later)
  end.

Definition notifications (r : State * list (list Notification)) : list Notification :=
  concat (snd r).

(** Observation vocabulary used by the properties. *)

Definition poll_completes (p : Poll) : bool :=
  match poll_fetch p with
  | Some snap => match snap_status snap with Completed => true | _ => false end
  | None => false
  end.

(** The polls on which an iteration runs: up to and including the first
    one that reports the tournament completed. *)
Fixpoint executed (polls : list Poll) : list Poll :=
  match polls with
  | [] => []
  | p :: rest => p :: (if poll_completes p then [] else executed rest)
  end.

Definition round_seen_in (R : Z) (rounds : list Round) : bool :=
  existsb (fun r => bool_decide (round_id r = R) && round_is_active r) rounds.

Definition game_seen_in (G : Z) (games : list Game) : bool :=
  existsb (fun g => bool_decide (game_id g = G) && game_is_completed g) games.

(** The poll fetched successfully and lists round [R] as active. *)
Definition observes_round_active (R : Z) (p : Poll) : bool :=
  match poll_fetch p with
  | Some snap => round_seen_in R (snap_rounds snap)
  | None => false
  end.

(** The poll fetched successfully and lists game [G] as completed. *)
Definition observes_game_completed (G : Z) (p : Poll) : bool :=
  match poll_fetch p with
  | Some snap => game_seen_in G (snap_games snap)
  | None => false
  end.

Definition knows_round (R : Z) (s : State) : bool :=
  bool_decide (R ∈ processed_rounds s).

Definition knows_game (G : Z) (s : State) : bool :=
  bool_decide (G ∈ processed_games s).

(** Both fetches of the iteration succeed and the interval has elapsed
    since [LastStandingsUpdate]. *)
Definition standings_due (cfg : Settings) (s : State) (p : Poll) : bool :=
  match poll_fetch p, poll_standings p with
  | Some _, Some _ =>
      standings_update_interval cfg <=? poll_now p - last_standings_update s
  | _, _ => false
  end.

Definition is_round_start_for (R : Z) (n : Notification) : bool :=
  match n with
  | RoundStart r => bool_decide (round_id r = R)
  | _ => false
  end.

Definition is_game_result_for (G : Z) (n : Notification) : bool :=
  match n with
  | GameResult g => bool_decide (game_id g = G)
  | _ => false
  end.

Definition round_starts (R : Z) (sent : list Notification) : nat :=
  length (filter (fun n => is_round_start_for R n = true) sent).

Definition game_results (G : Z) (sent : list Notification) : nat :=
  length (filter (fun n => is_game_result_for G n = true) sent).

(** Times at which standings notifications were sent, in order. *)
Fixpoint standings_times (sent : list Notification) : list Z :=
  match sent with
  | [] => []
  | StandingsUpdate t _ :: rest => t :: standings_times rest
  | _ :: rest => standings_times rest
  end.

(** Every time in the list is at least [interval] after the previous one,
    the first being measured from [last]. *)
Fixpoint spaced (interval last : Z) (times : list Z) : Prop :=
  match times with
  | [] => True
  | t :: rest => interval <= t - last /\ spaced interval t rest
  end.

(** [i] is the first position of [polls] whose poll satisfies [obs]. *)
Definition first_observation (obs : Poll -> bool) (polls : list Poll) (i : nat) : bool :=
  match polls !! i with
  | Some p => obs p && forallb (fun q => negb (obs q)) (take i polls)
  | None => false
  end.

End Monitor.


(** ** Slack notifications ([slack_notifier.py])

    The texts of this module contain characters outside Latin-1; a string
    here is the UTF-8 encoding of the Python text, which concatenation
    respects; a slice counts code points, not bytes. *)

Module Slack.

Definition nl : string := String (ascii_of_nat 10) EmptyString.

Definition decimal (z : Z) : string := NilZero.string_of_int (Z.to_int z).

(** *** The webhook and [send_message] (lines 34-75) *)

Record SlackNotifier : Type := mkNotifier {
  webhook_url : string;
  channel : option string
}.

Inductive Block : Type :=
  | Header (text : string)
  | SectionBlock (text : string)
  | Divider
  | ContextBlock (text : string).

Record Payload : Type := mkPayload {
  pl_text : string;
  pl_channel : option string;
  pl_blocks : option (list Block);
  pl_attachments : option (list Block)
}.

(** The exceptions of [requests]; every one of them inherits from
    [requests.exceptions.RequestException]. *)
Inductive RequestException : Type :=
  | ConnectionError
  | Timeout
  | TooManyRedirects
  | HTTPError (status_code : Z).

(** What [requests.post] does: raise, or return a response with a status. *)
Inductive PostOutcome : Type :=
  | PostRaises (e : RequestException)
  | PostResponse (status_code : Z).

(** The network: the outcome of posting a payload to a URL. *)
Definition Webhook : Type := string -> Payload -> PostOutcome.

Inductive LogRecord : Type :=
  | LogInfo (msg : string)
  | LogError (msg : string) (cause : RequestException).

(** What a call of [send_message] leaves behind: the value returned, the
    POST requests issued, the log lines written. *)
Record Sent : Type := mkSent {
  sent_ok : bool;
  sent_posts : list Payload;
  sent_log : list LogRecord
}.

(** Truth value of an optional string or list: [None] and the empty value
    are false. *)
Definition truthy_str (s : option string) : option string :=
  match s with
  | Some EmptyString => None
  | other => other
  end.

Definition truthy_list {A} (l : option (list A)) : option (list A) :=
  match l with
  | Some [] => None
  | other => other
  end.

Definition build_payload (self : SlackNotifier) (text : string)
    (blocks attachments : option (list Block)) : Payload :=
  {| pl_text := text;
     pl_channel := truthy_str (channel self);
     pl_blocks := truthy_list blocks;
     pl_attachments := truthy_list attachments |}.

(** [Response.raise_for_status]: an [HTTPError] for a status from 400 to
    599, nothing otherwise. *)
Definition raise_for_status (status_code : Z) : option RequestException :=
  if (400 <=? status_code) && (status_code <? 600)
  then Some (HTTPError status_code)
  else None.

(** A byte that continues a UTF-8 sequence ([10xxxxxx]); every other byte
    starts a code point. *)
Definition is_continuation (c : ascii) : bool :=
  ((128 <=? nat_of_ascii c) && (nat_of_ascii c <? 192))%nat.

(** [text[:n]] on the UTF-8 encoding of [text]: the bytes of its first [n]
    code points. *)
Fixpoint utf8_take (n : nat) (s : string) : string :=
  match s with
  | EmptyString => EmptyString
  | String c rest =>
      if is_continuation c then String c (utf8_take n rest)
      else
        match n with
        | O => EmptyString
        | S n' => String c (utf8_take n' rest)
        end
  end.

(** [len(text)]: the number of code points of the encoded text. *)
Fixpoint utf8_length (s : string) : nat :=
  match s with
  | EmptyString => 0
  | String c rest =>
      if is_continuation c then utf8_length rest else S (utf8_length rest)
  end.

Definition send_message (post : Webhook) (self : SlackNotifier) (text : string)
    (blocks attachments : option (list Block)) : Sent :=
  let payload := build_payload self text blocks attachments in
  let failed e :=
    {| sent_ok := false;
       sent_posts := [payload];
       sent_log := [LogError "Failed to send Slack message" e] |} in
  match post (webhook_url self) payload with
  | PostRaises e => failed e
  | PostResponse status_code =>
      match raise_for_status status_code with
      | Some e => failed e
      | None =>
          {| sent_ok := true;
             sent_posts := [payload];
             sent_log :=
               [LogInfo ("Message sent successfully to Slack: "
                         +:+ utf8_take 50 text +:+ "...")] |}
      end
  end.

(** *** [notify_round_start] (lines 77-169) *)

Record Assignment : Type := mkAssignment {
  machine_name : option string;
  player_name : option string;
  pintips : option (list string)
}.

Definition machine_of (a : Assignment) : string :=
  default "Unknown Machine" (machine_name a).

(** [machine_groups] is a dict, which keeps the order of first insertion. *)
Fixpoint group_append (machine : string) (a : Assignment)
    (groups : list (string * list Assignment)) : list (string * list Assignment) :=
  match groups with
  | [] => [(machine, [a])]
  | (m, members) :: rest =>
      if String.eqb m machine
      then (m, members ++ [a]) :: rest
      else (m, members) :: group_append machine a rest
  end.

(** The grouping loop of lines 115-120.  Its loop variable is named
    [assignment]; the second component is what that name is bound to when
    the loop ends ([None]: never bound). *)
Definition group_assignments (player_assignments : list Assignment)
    : list (string * list Assignment) * option Assignment :=
  fold_left
    (fun acc a => (group_append (machine_of a) a (fst acc), Some a))
    player_assignments ([], None).

Definition player_line (idx : nat) (a : Assignment) : string :=
  "• Player " +:+ decimal (Z.of_nat idx + 1) +:+ ": *"
  +:+ default "Unknown Player" (player_name a) +:+ "*" +:+ nl.

(** The inner loop of lines 125-127; it rebinds the same name
    [assignment]. *)
Fixpoint players_loop (idx : nat) (assignments : list Assignment)
    (player_text : string) (bound : option Assignment) : string * option Assignment :=
  match assignments with
  | [] => (player_text, bound)
  | a :: rest => players_loop (S idx) rest (player_text +:+ player_line idx a) (Some a)
  end.

(** ['pintips' in assignment and assignment['pintips']] *)
Definition has_pintips (a : Assignment) : bool :=
  match pintips a with
  | Some (_ :: _) => true
  | _ => false
  end.

Definition tip_text (tips : list string) : string :=
  fold_left (fun text tip => text +:+ "• " +:+ tip +:+ nl) (take 3 tips)
    ("💡 *Tips:*" +:+ nl).

(** Lines 137-149, on whatever [assignment] is bound to. *)
Definition tips_blocks (assignment : Assignment) : list Block :=
  if has_pintips assignment
  then [SectionBlock (tip_text (default [] (pintips assignment)))]
  else [].

Definition machine_section (machine player_text : string) : Block :=
  SectionBlock ("*🎮 " +:+ machine +:+ "*" +:+ nl +:+ player_text).

(** The loop over [machine_groups.items()] of lines 123-153.  Reading
    [assignment] while it is unbound raises. *)
Fixpoint groups_loop (groups : list (string * list Assignment))
    (bound : option Assignment) (blocks : list Block) : Result (list Block) :=
  match groups with
  | [] => Return blocks
  | (machine, assignments) :: rest =>
      let '(player_text, bound') := players_loop 0 assignments "" bound in
      let blocks' := blocks ++ [machine_section machine player_text] in
      match bound' with
      | None => Raise UnboundLocalError
      | Some assignment =>
          groups_loop rest bound' (blocks' ++ tips_blocks assignment ++ [Divider])
      end
  end.

Definition round_header (round_name tournament_name : string) : list Block :=
  [ Header ("🎯 New Round Starting: " +:+ round_name);
    SectionBlock ("*Tournament:* " +:+ tournament_name +:+ nl
                  +:+ "*Round:* " +:+ round_name +:+ nl +:+ nl
                  +:+ "Please check your game assignments below:");
    Divider ].

Definition round_footer : Block :=
  ContextBlock "Remember to enter your scores in MatchPlay when finished. Good luck!".

Definition round_blocks (round_name : string) (player_assignments : list Assignment)
    (tournament_name : string) : Result (list Block) :=
  let '(machine_groups, bound) := group_assignments player_assignments in
  blocks ← groups_loop machine_groups bound (round_header round_name tournament_name);
  Return (blocks ++ [round_footer]).

Definition notify_round_start (post : Webhook) (self : SlackNotifier)
    (round_name : string) (player_assignments : list Assignment)
    (tournament_name : string) : Result Sent :=
  blocks ← round_blocks round_name player_assignments tournament_name;
  Return (send_message post self
            ("New Round Starting: " +:+ round_name +:+ " - " +:+ tournament_name)
            (Some blocks) None).

(** The state of the grouping loop after a prefix of the assignments: the
    machines are distinct, every machine met has a group, a group holds the
    assignments of its machine in order, and [assignment] is bound to the
    last one met. *)
Definition grouped (prefix : list Assignment)
    (acc : list (string * list Assignment) * option Assignment) : Prop :=
  NoDup (fst acc).*1
  /\ (forall a, a ∈ prefix -> machine_of a ∈ (fst acc).*1)
  /\ (forall k ms, (k, ms) ∈ fst acc ->
        ms <> [] /\ ms = filter (fun a => machine_of a = k) prefix)
  /\ snd acc = last prefix.

(** What the rendering of one machine group is claimed to be: the section
    listing the players, a tips section decided by the last assignment of the
    group alone, a divider. *)
Definition players_text (assignments : list Assignment) : string :=
  fst (players_loop 0 assignments "" None).

Definition group_rendering (group : string * list Assignment) : list Block :=
  machine_section (fst group) (players_text (snd group))
  :: match last (snd group) with
     | Some a => tips_blocks a
     | None => []
     end
  ++ [Divider].

(** *** Sorting by position (lines 193 and 257)

    [list.sort(key=...)] sorts in place, ascending on the keys, and is
    stable.  The key is [x.get('position', 999)]. *)

Fixpoint insert_by {A} (key : A -> Z) (x : A) (l : list A) : list A :=
  match l with
  | [] => [x]
  | y :: rest => if key x <=? key y then x :: l else y :: insert_by key x rest
  end.

Definition sort_by {A} (key : A -> Z) (l : list A) : list A :=
  foldr (insert_by key) [] l.

(** The order a sort by [key] establishes. *)
Definition key_le {A} (key : A -> Z) (a b : A) : Prop := key a <= key b.

(** List objects live in a heap and are passed by reference, so that a sort
    in place is seen by every holder of the reference. *)
Definition loc : Type := nat.

(** [lst.sort(key=key)] on the object at [l]. *)
Definition sort_in_place {A} (key : A -> Z) (l : loc) (heap : gmap loc (list A))
    : gmap loc (list A) :=
  alter (sort_by key) l heap.

Definition deref {A} (heap : gmap loc (list A)) (l : loc) : list A :=
  default [] (heap !! l).

(** [f"{score:,}"]: decimal digits in groups of three. *)
Fixpoint group3 (rev_digits : list ascii) : list ascii :=
  match rev_digits with
  | a :: b :: c :: rest =>
      match rest with
      | [] => [a; b; c]
      | _ :: _ => a :: b :: c :: ","%char :: group3 rest
      end
  | short => short
  end.

Definition format_thousands (z : Z) : string :=
  let digits := list_ascii_of_string (decimal (Z.abs z)) in
  let grouped := string_of_list_ascii (rev (group3 (rev digits))) in
  if z <? 0 then "-" +:+ grouped else grouped.

(** *** [notify_game_results] (lines 171-239) *)

Record PlayerResult : Type := mkPlayerResult {
  pr_position : option Z;
  pr_player_name : option string;
  pr_score : option Z
}.

(** The [game_results] dict; ['players'], when present, refers to a list
    object. *)
Record GameResults : Type := mkGameResults {
  gr_machine_name : option string;
  gr_round_name : option string;
  gr_players : option loc
}.

Definition player_key (p : PlayerResult) : Z := default 999 (pr_position p).

Definition position_emoji (position : option Z) : string :=
  match position with
  | Some 1 => "🥇"
  | Some 2 => "🥈"
  | Some 3 => "🥉"
  | _ => "🎮"
  end.

Definition result_line (p : PlayerResult) : string :=
  position_emoji (pr_position p) +:+ " *"
  +:+ default "Unknown Player" (pr_player_name p) +:+ "*: "
  +:+ format_thousands (default 0 (pr_score p)) +:+ " points" +:+ nl.

Definition results_text (players : list PlayerResult) : string :=
  fold_left (fun text p => text +:+ result_line p) players "".

Definition game_blocks (machine round_name tournament_name : string)
    (players : list PlayerResult) : list Block :=
  [ Header "🏆 Game Results";
    SectionBlock ("*Tournament:* " +:+ tournament_name +:+ nl
                  +:+ "*Round:* " +:+ round_name +:+ nl
                  +:+ "*Machine:* " +:+ machine);
    Divider;
    SectionBlock (results_text players) ].

(** The heap after the call is returned with what was sent.  When the dict
    has no ['players'], the list sorted is the fresh default [[]], which no
    caller holds. *)
Definition notify_game_results (post : Webhook) (self : SlackNotifier)
    (heap : gmap loc (list PlayerResult)) (game_results : GameResults)
    (tournament_name : string) : gmap loc (list PlayerResult) * Sent :=
  let machine := default "Unknown Machine" (gr_machine_name game_results) in
  let round_name := default "Unknown Round" (gr_round_name game_results) in
  let '(heap', players) :=
    match gr_players game_results with
    | Some l =>
        let heap' := sort_in_place player_key l heap in
        (heap', deref heap' l)
    | None => (heap, sort_by player_key [])
    end in
  (heap',
   send_message post self
     ("Game Results - " +:+ machine +:+ " - " +:+ tournament_name)
     (Some (game_blocks machine round_name tournament_name players)) None).

(** *** [notify_tournament_standings] (lines 241-316) *)

Record StandingEntry : Type := mkStandingEntry {
  se_position : option Z;
  se_name : option string;
  se_points : option Z;
  se_games_played : option Z
}.

Definition standing_key (e : StandingEntry) : Z := default 999 (se_position e).

(** The slice [lst[:n]]: a negative bound counts from the end. *)
Definition slice_to {A} (n : Z) (l : list A) : list A :=
  if n <? 0
  then take (Z.to_nat (Z.of_nat (length l) + n)) l
  else take (Z.to_nat n) l.

Definition position_marker (position : option Z) : string :=
  match position with
  | Some 1 => "🥇"
  | Some 2 => "🥈"
  | Some 3 => "🥉"
  | Some p => decimal p +:+ "."
  | None => "?."
  end.

Definition standing_line (e : StandingEntry) : string :=
  position_marker (se_position e) +:+ " *"
  +:+ default "Unknown Player" (se_name e) +:+ "* - "
  +:+ decimal (default 0 (se_points e)) +:+ " pts ("
  +:+ decimal (default 0 (se_games_played e)) +:+ " games)" +:+ nl.

Definition table_text (top_standings : list StandingEntry) : string :=
  fold_left (fun text e => text +:+ standing_line e) top_standings "".

(** The text of the section announcing how many players follow. *)
Definition standings_intro (tournament_name : string) (shown : nat) : string :=
  "*Tournament:* " +:+ tournament_name +:+ nl +:+ nl
  +:+ "Here are the current top " +:+ decimal (Z.of_nat shown) +:+ " players:".

Definition standings_blocks (tournament_name : string)
    (top_standings : list StandingEntry) : list Block :=
  [ Header "📊 Current Tournament Standings";
    SectionBlock (standings_intro tournament_name (length top_standings));
    Divider;
    SectionBlock (table_text top_standings);
    ContextBlock "View complete standings in the MatchPlay Events app or website." ].

Definition default_top_n : Z := 10.

(** The entries rendered: [standings[:top_n]] after the sort in place. *)
Definition top_standings (heap : gmap loc (list StandingEntry)) (standings : loc)
    (top_n : Z) : list StandingEntry :=
  slice_to top_n (deref (sort_in_place standing_key standings heap) standings).

Definition notify_tournament_standings (post : Webhook) (self : SlackNotifier)
    (heap : gmap loc (list StandingEntry)) (standings : loc)
    (tournament_name : string) (top_n : Z) : gmap loc (list StandingEntry) * Sent :=
  let heap' := sort_in_place standing_key standings heap in
  let top := slice_to top_n (deref heap' standings) in
  (heap',
   send_message post self
     ("Current Tournament Standings - " +:+ tournament_name)
     (Some (standings_blocks tournament_name top)) None).

(** *** [notify_player_up_next] (lines 318-390) *)

Record GameDetails : Type := mkGameDetails {
  gd_machine_name : option string;
  gd_machine_location : option string;
  gd_round_name : option string;
  gd_opponents : option (list string);
  gd_pintips : option (list string)
}.

(** [f" ({machine_location})" if machine_location else ""] *)
Definition location_text (machine_location : string) : string :=
  match machine_location with
  | EmptyString => ""
  | _ => " (" +:+ machine_location +:+ ")"
  end.

Definition opponents_text (opponents : list string) : string :=
  fold_left (fun text opp => text +:+ "• " +:+ opp +:+ nl) opponents
    ("*Opponents:*" +:+ nl).

(** The loop over [enumerate(pintips[:3])], from index [i]. *)
Fixpoint numbered_tips (i : nat) (tips : list string) (text : string) : string :=
  match tips with
  | [] => text
  | tip :: rest =>
      numbered_tips (S i) rest
        (text +:+ decimal (Z.of_nat i + 1) +:+ ". " +:+ tip +:+ nl)
  end.

Definition machine_tips_text (pintips : list string) : string :=
  numbered_tips 0 (take 3 pintips) ("💡 *Machine Tips:*" +:+ nl).

Definition up_next_blocks (player_name : string) (game_details : GameDetails)
    (tournament_name : string) : list Block :=
  let machine := default "Unknown Machine" (gd_machine_name game_details) in
  let machine_location := default "" (gd_machine_location game_details) in
  let round_name := default "Unknown Round" (gd_round_name game_details) in
  let opponents := default [] (gd_opponents game_details) in
  let pintips := default [] (gd_pintips game_details) in
  [ Header "🔔 You're Up Next!";
    SectionBlock ("Hey *" +:+ player_name +:+ "*, you're up for your next game!"
                  +:+ nl +:+ nl
                  +:+ "*Tournament:* " +:+ tournament_name +:+ nl
                  +:+ "*Round:* " +:+ round_name +:+ nl
                  +:+ "*Machine:* " +:+ machine +:+ location_text machine_location) ]
  ++ match opponents with
     | [] => []
     | _ :: _ => [SectionBlock (opponents_text opponents)]
     end
  ++ match pintips with
     | [] => []
     | _ :: _ => [SectionBlock (machine_tips_text pintips)]
     end.

Definition notify_player_up_next (post : Webhook) (self : SlackNotifier)
    (player_name : string) (game_details : GameDetails) (tournament_name : string)
    : Sent :=
  let machine := default "Unknown Machine" (gd_machine_name game_details) in
  send_message post self
    ("You're up next on " +:+ machine +:+ " - " +:+ tournament_name)
    (Some (up_next_blocks player_name game_details tournament_name)) None.

(** *** The logger ([__init__] and [setup_logging], lines 11-32)

    [logging.getLogger('SlackNotifier')] is one object for the whole
    process; every notifier constructed shares it. *)

Inductive LogLevel : Type := NOTSET | DEBUG | INFO | WARNING | ERROR | CRITICAL.

Record Handler : Type := mkHandler {
  handler_format : string
}.

Record Logger : Type := mkLogger {
  logger_handlers : list Handler;
  logger_level : LogLevel
}.

(** The stream handler of lines 26-28. *)
Definition stream_handler : Handler :=
  mkHandler "%(asctime)s - %(name)s - %(levelname)s - %(message)s".

Definition setup_logging (logger : Logger) : Logger :=
  match logger_handlers logger with
  | [] => {| logger_handlers := [stream_handler]; logger_level := INFO |}
  | _ :: _ => logger
  end.

(** [SlackNotifier(webhook_url, channel)]: the notifier, and the shared
    logger after [setup_logging]. *)
Definition new_notifier (logger : Logger) (webhook_url : string)
    (channel : option string) : SlackNotifier * Logger :=
  (mkNotifier webhook_url channel, setup_logging logger).

(** Constructing one notifier after another. *)
Fixpoint new_notifiers (logger : Logger) (args : list (string * option string))
    : list SlackNotifier * Logger :=
  match args with
  | [] => ([], logger)
  | (webhook_url, channel) :: rest =>
      let '(n, logger') := new_notifier logger webhook_url channel in
      let '(ns, logger'') := new_notifiers logger' rest in
      (n :: ns, logger'')
  end.

(** A text with the thousands separators taken out. *)
Definition not_comma (c : ascii) : bool := negb (Ascii.eqb c ","%char).

Definition remove_commas (s : string) : string :=
  string_of_list_ascii (List.filter not_comma (list_ascii_of_string s)).

(** What a notifier owes to [send_message]: one POST, of a payload with the
    given text and blocks and no attachments, and a result that is [True]
    exactly when the response status is outside 400-599. *)
Definition posts_once (post : Webhook) (self : SlackNotifier) (out : Sent)
    (text : string) (blocks : list Block) : Prop :=
  exists payload,
    sent_posts out = [payload]
    /\ pl_text payload = text
    /\ pl_blocks payload = Some blocks
    /\ pl_attachments payload = None
    /\ (sent_ok out = true
        <-> exists st, post (webhook_url self) payload = PostResponse st
                       /\ ~ (400 <= st < 600)).

(** The last assignment of a machine group has tips to show. *)
Definition group_tipped (group : string * list Assignment) : bool :=
  match last (snd group) with
  | Some a => has_pintips a
  | None => false
  end.

End Slack.


(** * Properties of the URL identifier extraction *)

Section UrlFacts.
Import Url.
Variable decimal : Z -> option Z.
Variable max_str_digits : Z.

Lemma strip_prefix_Some (p s rest : list Z) :
  strip_prefix p s = Some rest <-> s = p ++ rest.
Proof.
  revert s. induction p as [|a p IH]; intros s; simpl.
  - split; [intros [= ->] | intros ->]; reflexivity.
  - destruct s as [|b s]; [split; discriminate |].
    destruct (Z.eqb_spec a b) as [->|Hne].
    + rewrite IH. split; [intros -> | intros [= ->]]; reflexivity.
    + split; [discriminate | intros [= Hab _]; congruence].
Qed.

Lemma take_digits_all (s : list Z) : all_digits decimal (take_digits decimal s).
Proof.
  induction s as [|c s IH]; simpl; [intros ? []%elem_of_nil |].
  destruct (is_digit decimal c) eqn:Hc; [| intros ? []%elem_of_nil].
  intros x [->|Hx]%elem_of_cons; [exact Hc | now apply IH].
Qed.

Lemma take_digits_split (s : list Z) :
  exists rest, s = take_digits decimal s ++ rest /\ no_leading_digit decimal rest.
Proof.
  induction s as [|c s [rest [Hs Hr]]]; simpl.
  - exists []. split; [reflexivity | exact I].
  - destruct (is_digit decimal c) eqn:Hc.
    + exists rest. split; [simpl; now rewrite <- Hs | exact Hr].
    + exists (c :: s). split; [reflexivity | exact Hc].
Qed.

Lemma take_digits_unique (ds rest : list Z) :
  all_digits decimal ds -> no_leading_digit decimal rest ->
  take_digits decimal (ds ++ rest) = ds.
Proof.
  intros Hds Hrest. induction ds as [|c ds IH]; simpl.
  - destruct rest as [|r rest]; simpl in *; [reflexivity | now rewrite Hrest].
  - rewrite (Hds c) by now left.
    rewrite IH; [reflexivity |]. intros x Hx. apply Hds. now right.
Qed.

Lemma match_here_spec (s ds : list Z) :
  match_here decimal s = Some ds <-> matches_at decimal s ds.
Proof.
  unfold match_here, matches_at. split.
  - destruct (strip_prefix tournaments_prefix s) as [rest|] eqn:Hp; [| discriminate].
    apply strip_prefix_Some in Hp.
    destruct (take_digits_split rest) as [rest' [Hrest Hlead]].
    pose proof (take_digits_all rest) as Hall.
    destruct (take_digits decimal rest) as [|c t] eqn:Ht; [discriminate |].
    intros [= <-]. exists rest'. repeat split; try assumption; try discriminate.
    now rewrite Hp, Hrest.
  - intros [rest [-> [Hne [Hall Hlead]]]].
    assert (strip_prefix tournaments_prefix (tournaments_prefix ++ ds ++ rest)
            = Some (ds ++ rest)) as -> by now apply strip_prefix_Some.
    rewrite take_digits_unique by assumption.
    destruct ds; [congruence | reflexivity].
Qed.

Lemma match_here_nil : match_here decimal [] = None.
Proof. reflexivity. Qed.

Lemma search_Some (s ds : list Z) :
  search decimal s = Some ds <-> first_match decimal s ds.
Proof.
  revert ds. induction s as [|c s IH]; intros ds.
  - simpl. split; [discriminate |].
    intros [pre [suf [Hs [Hmatch _]]]].
    destruct pre; [| discriminate]. simpl in Hs. subst suf.
    apply match_here_spec in Hmatch. discriminate.
  - cbn [search]. destruct (match_here decimal (c :: s)) as [d|] eqn:Hm.
    + split.
      * intros [= <-]. exists [], (c :: s).
        split; [reflexivity |]. split; [now apply match_here_spec |].
        intros p1 p2 ds' Hp Hne. destruct p1, p2; simpl in Hp; congruence.
      * intros [pre [suf [Hs [Hmatch Hfirst]]]].
        destruct pre as [|c' pre].
        -- simpl in Hs. subst suf. apply match_here_spec in Hmatch. congruence.
        -- exfalso. apply (Hfirst [] (c' :: pre) d); [reflexivity | discriminate |].
           rewrite <- Hs. now apply match_here_spec.
    + rewrite IH. split.
      * intros [pre [suf [Hs [Hmatch Hfirst]]]].
        exists (c :: pre), suf. split; [simpl; now rewrite Hs |].
        split; [assumption |].
        intros p1 p2 ds' Hp Hne Hbad.
        destruct p1 as [|x p1].
        -- simpl in Hp. subst p2. simpl in Hbad. rewrite <- Hs in Hbad.
           apply match_here_spec in Hbad. congruence.
        -- simpl in Hp. injection Hp as -> ->.
           now apply (Hfirst p1 p2 ds').
      * intros [pre [suf [Hs [Hmatch Hfirst]]]].
        destruct pre as [|c' pre].
        -- simpl in Hs. subst suf. apply match_here_spec in Hmatch. congruence.
        -- simpl in Hs. injection Hs as <- ->.
           exists pre, suf. split; [reflexivity |]. split; [assumption |].
           intros p1 p2 ds' -> Hne. apply (Hfirst (c :: p1) p2 ds'); [reflexivity | assumption].
Qed.

Lemma search_None (s : list Z) : search decimal s = None <-> no_match decimal s.
Proof.
  induction s as [|c s IH].
  - simpl. split; [| reflexivity].
    intros _ pre suf ds Hs Hm. destruct pre; [| discriminate].
    simpl in Hs. subst suf. apply match_here_spec in Hm. discriminate.
  - cbn [search]. destruct (match_here decimal (c :: s)) as [d|] eqn:Hm.
    + split; [discriminate |]. intros Hn. exfalso.
      apply (Hn [] (c :: s) d); [reflexivity | now apply match_here_spec].
    + rewrite IH. split.
      * intros Hn pre suf ds Hs Hmatch. destruct pre as [|c' pre].
        -- simpl in Hs. subst suf. apply match_here_spec in Hmatch. congruence.
        -- simpl in Hs. injection Hs as <- ->. now apply (Hn pre suf ds).
      * intros Hn pre suf ds -> Hmatch.
        now apply (Hn (c :: pre) suf ds).
Qed.

Lemma first_match_unique (url ds ds' : list Z) :
  first_match decimal url ds -> first_match decimal url ds' -> ds = ds'.
Proof. intros H H'. apply search_Some in H, H'. congruence. Qed.

Lemma extract_str (url : list Z) :
  extract_tournament_id decimal max_str_digits (PyStr url)
  = Return (match search decimal url with
            | Some ds =>
                if within_limit max_str_digits ds then Some (int_acc decimal 0 ds)
                else None
            | None => None
            end).
Proof.
  unfold extract_tournament_id, int_of_digits. simpl.
  destruct (search decimal url) as [ds|]; [| reflexivity].
  simpl. now destruct (within_limit max_str_digits ds).
Qed.

(** The value of a digit run is read in base ten, most significant digit
    first. *)
Lemma int_acc_snoc (acc : Z) (ds : list Z) (c : Z) :
  int_acc decimal acc (ds ++ [c]) = 10 * int_acc decimal acc ds + digit_value decimal c.
Proof.
  revert acc. induction ds as [|d ds IH]; intros acc; simpl; [reflexivity | apply IH].
Qed.


(** The outcome depends on the digit table only at the code points of the
    URL. *)
Lemma take_digits_ext (decimal' : Z -> option Z) (s : list Z) :
  (forall c, c ∈ s -> decimal c = decimal' c) ->
  take_digits decimal s = take_digits decimal' s.
Proof.
  induction s as [|c s IH]; intros Hext; [reflexivity |].
  simpl. unfold is_digit. rewrite (Hext c) by now left.
  destruct (decimal' c); [| reflexivity].
  rewrite IH; [reflexivity |]. intros x Hx. apply Hext. now right.
Qed.

Lemma match_here_ext (decimal' : Z -> option Z) (s : list Z) :
  (forall c, c ∈ s -> decimal c = decimal' c) ->
  match_here decimal s = match_here decimal' s.
Proof.
  intros Hext. unfold match_here.
  destruct (strip_prefix tournaments_prefix s) as [rest|] eqn:Hp; [| reflexivity].
  apply strip_prefix_Some in Hp. subst s.
  rewrite (take_digits_ext decimal' rest); [reflexivity |].
  intros c Hc. apply Hext. apply elem_of_app. now right.
Qed.

Lemma search_ext (decimal' : Z -> option Z) (s : list Z) :
  (forall c, c ∈ s -> decimal c = decimal' c) ->
  search decimal s = search decimal' s.
Proof.
  induction s as [|c s IH]; intros Hext; [reflexivity |].
  cbn [search]. rewrite (match_here_ext decimal') by assumption.
  destruct (match_here decimal' (c :: s)); [reflexivity |].
  apply IH. intros x Hx. apply Hext. now right.
Qed.

Lemma search_within (s ds : list Z) :
  search decimal s = Some ds -> forall c, c ∈ ds -> c ∈ s.
Proof.
  intros [pre [suf [-> [[rest [-> _]] _]]]]%search_Some c Hc.
  rewrite !elem_of_app. auto.
Qed.

Lemma int_acc_ext (decimal' : Z -> option Z) (ds : list Z) (acc : Z) :
  (forall c, c ∈ ds -> decimal c = decimal' c) ->
  int_acc decimal acc ds = int_acc decimal' acc ds.
Proof.
  revert acc. induction ds as [|c ds IH]; intros acc Hext; [reflexivity |].
  simpl. unfold digit_value. rewrite (Hext c) by now left.
  apply IH. intros x Hx. apply Hext. now right.
Qed.

Lemma extract_ext (decimal' : Z -> option Z) (url : list Z) :
  (forall c, c ∈ url -> decimal c = decimal' c) ->
  extract_tournament_id decimal max_str_digits (PyStr url)
  = extract_tournament_id decimal' max_str_digits (PyStr url).
Proof.
  intros Hext. rewrite extract_str. unfold extract_tournament_id, int_of_digits. simpl.
  rewrite (search_ext decimal') by assumption.
  pose proof (search_within url) as Hin. rewrite (search_ext decimal') in Hin by assumption.
  destruct (search decimal' url) as [ds|]; [| reflexivity]. simpl.
  destruct (within_limit max_str_digits ds); [| reflexivity]. simpl.
  rewrite (int_acc_ext decimal'); [reflexivity |].
  intros c Hc. apply Hext. now apply (Hin ds).
Qed.

Lemma extract_via (decimal' : Z -> option Z) (url : list Z) :
  (forall c, c ∈ url -> decimal c = decimal' c) ->
  extract_tournament_id decimal max_str_digits (PyStr url)
  = Return (match search decimal' url with
            | Some ds =>
                if within_limit max_str_digits ds then Some (int_acc decimal' 0 ds)
                else None
            | None => None
            end).
Proof.
  intros Hext. rewrite extract_str.
  pose proof (search_within url) as Hin.
  rewrite (search_ext decimal') in * by assumption.
  destruct (search decimal' url) as [ds|]; [| reflexivity].
  destruct (within_limit max_str_digits ds); [| reflexivity].
  rewrite (int_acc_ext decimal'); [reflexivity |].
  intros c Hc. apply Hext. now apply (Hin ds).
Qed.

Lemma code_points_ascii (s : string) (c : Z) :
  c ∈ code_points s -> 0 <= c < 256.
Proof.
  unfold code_points. intros [a [-> _]]%list_elem_of_fmap.
  pose proof (nat_ascii_bounded a). lia.
Qed.


(** C3, as the code has it: on every string, [extract_tournament_id]
    returns the integer written by the digits that the first match of
    [/tournaments/(\d+)] captures when that run of digits is one [int]
    converts, and [None] when no position of the string matches or the run
    is longer than the interpreter's limit; with no limit configured every
    match gives its integer.  It returns 12345 on
    ["https://matchplay.events/tournaments/12345/view"] and [None] on
    ["https://matchplay.events/no-id-here"]. *)
Theorem extract_tournament_id_first_match (url : list Z) :
  (forall c, 0 <= c < 256 -> decimal c = basic_decimal c) ->
  max_str_digits = 0 \/ 640 <= max_str_digits ->
  (forall n, extract_tournament_id decimal max_str_digits (PyStr url) = Return (Some n)
             <-> exists ds, first_match decimal url ds
                            /\ within_limit max_str_digits ds = true
                            /\ n = int_acc decimal 0 ds)
  /\ (extract_tournament_id decimal max_str_digits (PyStr url) = Return None
      <-> no_match decimal url
          \/ exists ds, first_match decimal url ds
                        /\ within_limit max_str_digits ds = false)
  /\ (max_str_digits = 0 -> forall ds, within_limit max_str_digits ds = true)
  /\ (forall ds, within_limit max_str_digits ds = false
                 <-> 0 < max_str_digits < Z.of_nat (length ds))
  /\ extract_tournament_id decimal max_str_digits
       (PyStr (code_points "https://matchplay.events/tournaments/12345/view"))
     = Return (Some 12345)
  /\ extract_tournament_id decimal max_str_digits
       (PyStr (code_points "https://matchplay.events/no-id-here"))
     = Return None.
Proof.
  intros Hlatin Hlimit.
  split; [| split; [| split; [| split; [| split]]]].
  - intros n. rewrite extract_str. split.
    + destruct (search decimal url) as [ds|] eqn:Hs; [| discriminate].
      destruct (within_limit max_str_digits ds) eqn:Hw; [| discriminate].
      intros [= <-]. exists ds. split; [now apply search_Some | auto].
    + intros [ds (Hm & Hw & ->)]. apply search_Some in Hm. now rewrite Hm, Hw.
  - rewrite extract_str. split.
    + destruct (search decimal url) as [ds|] eqn:Hs.
      * destruct (within_limit max_str_digits ds) eqn:Hw; [discriminate |].
        intros _. right. exists ds. split; [now apply search_Some | exact Hw].
      * intros _. left. now apply search_None.
    + intros [Hn | [ds [Hm Hw]]].
      * apply search_None in Hn. now rewrite Hn.
      * apply search_Some in Hm. now rewrite Hm, Hw.
  - intros -> ds. reflexivity.
  - intros ds. unfold within_limit. rewrite orb_false_iff, !Z.leb_gt. lia.
  - rewrite (extract_via basic_decimal)
      by (intros c Hc; apply Hlatin; now apply code_points_ascii in Hc).
    assert (search basic_decimal
              (code_points "https://matchplay.events/tournaments/12345/view")
            = Some (code_points "12345")) as -> by (vm_compute; reflexivity).
    assert (within_limit max_str_digits (code_points "12345") = true) as ->.
    { unfold within_limit. apply orb_true_iff. rewrite !Z.leb_le.
      change (Z.of_nat (length (code_points "12345"))) with 5. lia. }
    reflexivity.
  - rewrite (extract_via basic_decimal)
      by (intros c Hc; apply Hlatin; now apply code_points_ascii in Hc).
    assert (search basic_decimal (code_points "https://matchplay.events/no-id-here")
            = None) as -> by (vm_compute; reflexivity).
    reflexivity.
Qed.

(** C4: [extract_tournament_id] raises on no argument, string or not; a
    value that is not a string, and a string in which the pattern matches
    nowhere, both give [None]. *)
Theorem extract_tournament_id_never_raises (v : PyValue) :
  exists r, extract_tournament_id decimal max_str_digits v = Return r
    /\ ((forall s, v <> PyStr s) -> r = None)
    /\ (forall s, v = PyStr s -> no_match decimal s -> r = None).
Proof.
  destruct v as [| b | z | s | b | t];
    try (exists None; split; [reflexivity | split; [reflexivity | discriminate]]).
  rewrite extract_str. eexists. split; [reflexivity |]. split.
  - intros Hne. now destruct (Hne s).
  - intros s' [= <-] Hn. apply search_None in Hn. now rewrite Hn.
Qed.

End UrlFacts.

(** With the limit of 4300 digits, a URL whose identifier has 4301 digits
    has a first match and gives [None]. *)
Lemma extract_tournament_id_digit_limit :
  let digits := repeat 49 4301 in
  let url := Url.code_points "/tournaments/" ++ digits in
  Url.first_match Url.basic_decimal url digits
  /\ Url.extract_tournament_id Url.basic_decimal 4300 (PyStr url) = Return None.
Proof.
  intros digits url. split.
  - apply search_Some. vm_compute. reflexivity.
  - vm_compute. reflexivity.
Qed.


(** * Properties of the polling loop *)

Section MonitorFacts.
Import Monitor.

Lemma round_starts_cons (R : Z) (n : Notification) (sent : list Notification) :
  round_starts R (n :: sent)
  = ((if is_round_start_for R n then 1 else 0) + round_starts R sent)%nat.
Proof.
  unfold round_starts. destruct (is_round_start_for R n) eqn:Hn.
  - now rewrite filter_cons_True.
  - rewrite filter_cons_False; [reflexivity | congruence].
Qed.

Lemma round_starts_app (R : Z) (a b : list Notification) :
  round_starts R (a ++ b) = (round_starts R a + round_starts R b)%nat.
Proof. unfold round_starts. now rewrite filter_app, length_app. Qed.

Lemma game_results_cons (G : Z) (n : Notification) (sent : list Notification) :
  game_results G (n :: sent)
  = ((if is_game_result_for G n then 1 else 0) + game_results G sent)%nat.
Proof.
  unfold game_results. destruct (is_game_result_for G n) eqn:Hn.
  - now rewrite filter_cons_True.
  - rewrite filter_cons_False; [reflexivity | congruence].
Qed.

Lemma game_results_app (G : Z) (a b : list Notification) :
  game_results G (a ++ b) = (game_results G a + game_results G b)%nat.
Proof. unfold game_results. now rewrite filter_app, length_app. Qed.

Lemma standings_times_app (a b : list Notification) :
  standings_times (a ++ b) = standings_times a ++ standings_times b.
Proof.
  induction a as [|n a IH]; [reflexivity |].
  destruct n; simpl; now rewrite IH.
Qed.

(** What step 2 does to the set and to the notifications, for one round
    identifier. *)
Lemma announce_rounds_spec (R : Z) (rounds : list Round) (seen : gset Z) :
  let '(seen', sent) := announce_rounds seen rounds in
  seen ⊆ seen'
  /\ (R ∈ seen' <-> R ∈ seen \/ round_seen_in R rounds = true)
  /\ round_starts R sent
     = (if bool_decide (R ∈ seen) then 0 else if round_seen_in R rounds then 1 else 0)%nat
  /\ (forall G, game_results G sent = 0%nat)
  /\ standings_times sent = [].
Proof.
  revert seen. induction rounds as [|r rest IH]; intros seen; simpl.
  - repeat split; try set_solver. now case_bool_decide.
  - destruct (bool_decide (round_id r ∈ seen)) eqn:Hin; simpl.
    + apply bool_decide_eq_true in Hin.
      specialize (IH seen). destruct (announce_rounds seen rest) as [seen' sent].
      destruct IH as (Hsub & Hiff & Hcount & Hg & Ht).
      repeat split; try assumption.
      * rewrite Hiff. intros [?|?]; [now left | right; now rewrite H, orb_true_r].
      * rewrite Hiff. intros [?|Hor]; [now left |].
        apply orb_true_iff in Hor as [Hh|?]; [| now right].
        apply andb_true_iff in Hh as [Hid _]. apply bool_decide_eq_true in Hid.
        left. now rewrite <- Hid.
      * rewrite Hcount. case_bool_decide; [reflexivity |].
        assert (bool_decide (round_id r = R) = false) as ->
          by (apply bool_decide_eq_false; congruence).
        reflexivity.
    + apply bool_decide_eq_false in Hin.
      destruct (round_is_active r) eqn:Hact; simpl.
      * specialize (IH ({[round_id r]} ∪ seen)).
        destruct (announce_rounds ({[round_id r]} ∪ seen) rest) as [seen' sent].
        destruct IH as (Hsub & Hiff & Hcount & Hg & Ht).
        split; [set_solver |]. split; [| split; [| split]].
        -- rewrite Hiff. rewrite andb_true_r.
           destruct (bool_decide (round_id r = R)) eqn:Hid; simpl.
           ++ apply bool_decide_eq_true in Hid. set_solver.
           ++ apply bool_decide_eq_false in Hid. set_solver.
        -- rewrite round_starts_cons, Hcount. simpl. rewrite andb_true_r.
           destruct (bool_decide (round_id r = R)) eqn:Hid; simpl.
           ++ apply bool_decide_eq_true in Hid. subst R.
              rewrite (bool_decide_eq_true_2 (round_id r ∈ {[round_id r]} ∪ seen)) by set_solver.
              now rewrite (bool_decide_eq_false_2 (round_id r ∈ seen)).
           ++ apply bool_decide_eq_false in Hid.
              destruct (decide (R ∈ seen)) as [Hs|Hs].
              ** rewrite !bool_decide_eq_true_2; [reflexivity | assumption | set_solver].
              ** rewrite !bool_decide_eq_false_2; [reflexivity | assumption | set_solver].
        -- intros G. rewrite game_results_cons. simpl. apply Hg.
        -- simpl. exact Ht.
      * rewrite andb_false_r. simpl. apply IH.
Qed.

Lemma announce_games_spec (G : Z) (games : list Game) (seen : gset Z) :
  let '(seen', sent) := announce_games seen games in
  seen ⊆ seen'
  /\ (G ∈ seen' <-> G ∈ seen \/ game_seen_in G games = true)
  /\ game_results G sent
     = (if bool_decide (G ∈ seen) then 0 else if game_seen_in G games then 1 else 0)%nat
  /\ (forall R, round_starts R sent = 0%nat)
  /\ standings_times sent = [].
Proof.
  revert seen. induction games as [|g rest IH]; intros seen; simpl.
  - repeat split; try set_solver. now case_bool_decide.
  - destruct (bool_decide (game_id g ∈ seen)) eqn:Hin; simpl.
    + apply bool_decide_eq_true in Hin.
      specialize (IH seen). destruct (announce_games seen rest) as [seen' sent].
      destruct IH as (Hsub & Hiff & Hcount & Hg & Ht).
      repeat split; try assumption.
      * rewrite Hiff. intros [?|?]; [now left | right; now rewrite H, orb_true_r].
      * rewrite Hiff. intros [?|Hor]; [now left |].
        apply orb_true_iff in Hor as [Hh|?]; [| now right].
        apply andb_true_iff in Hh as [Hid _]. apply bool_decide_eq_true in Hid.
        left. now rewrite <- Hid.
      * rewrite Hcount. case_bool_decide; [reflexivity |].
        assert (bool_decide (game_id g = G) = false) as ->
          by (apply bool_decide_eq_false; congruence).
        reflexivity.
    + apply bool_decide_eq_false in Hin.
      destruct (game_is_completed g) eqn:Hact; simpl.
      * specialize (IH ({[game_id g]} ∪ seen)).
        destruct (announce_games ({[game_id g]} ∪ seen) rest) as [seen' sent].
        destruct IH as (Hsub & Hiff & Hcount & Hg & Ht).
        split; [set_solver |]. split; [| split; [| split]].
        -- rewrite Hiff. rewrite andb_true_r.
           destruct (bool_decide (game_id g = G)) eqn:Hid; simpl.
           ++ apply bool_decide_eq_true in Hid. set_solver.
           ++ apply bool_decide_eq_false in Hid. set_solver.
        -- rewrite game_results_cons, Hcount. simpl. rewrite andb_true_r.
           destruct (bool_decide (game_id g = G)) eqn:Hid; simpl.
           ++ apply bool_decide_eq_true in Hid. subst G.
              rewrite (bool_decide_eq_true_2 (game_id g ∈ {[game_id g]} ∪ seen)) by set_solver.
              now rewrite (bool_decide_eq_false_2 (game_id g ∈ seen)).
           ++ apply bool_decide_eq_false in Hid.
              destruct (decide (G ∈ seen)) as [Hs|Hs].
              ** rewrite !bool_decide_eq_true_2; [reflexivity | assumption | set_solver].
              ** rewrite !bool_decide_eq_false_2; [reflexivity | assumption | set_solver].
        -- intros R. rewrite round_starts_cons. simpl. apply Hg.
        -- simpl. exact Ht.
      * rewrite andb_false_r. simpl. apply IH.
Qed.


Lemma standings_step_spec (cfg : Settings) (last : Z) (p : Poll) :
  let '(last', sent) := standings_step cfg last p in
  (forall R, round_starts R sent = 0%nat)
  /\ (forall G, game_results G sent = 0%nat)
  /\ ((standings_times sent = [] /\ last' = last)
      \/ (standings_times sent = [poll_now p] /\ last' = poll_now p
          /\ standings_update_interval cfg <= poll_now p - last)).
Proof.
  unfold standings_step.
  destruct (Z.leb_spec (standings_update_interval cfg) (poll_now p - last)) as [Hle|Hlt].
  - destruct (poll_standings p) as [st|]; simpl.
    + split; [reflexivity |]. split; [reflexivity |]. right. auto.
    + split; [reflexivity |]. split; [reflexivity |]. left. auto.
  - simpl. split; [reflexivity |]. split; [reflexivity |]. left. auto.
Qed.


(** One iteration, seen from a round identifier, a game identifier and the
    standings clock. *)
Lemma iteration_spec (cfg : Settings) (s : State) (p : Poll) (R G : Z) :
  let '(s', sent) := iteration cfg s p in
  processed_rounds s ⊆ processed_rounds s'
  /\ processed_games s ⊆ processed_games s'
  /\ (R ∈ processed_rounds s' <-> R ∈ processed_rounds s \/ observes_round_active R p = true)
  /\ (G ∈ processed_games s' <-> G ∈ processed_games s \/ observes_game_completed G p = true)
  /\ round_starts R sent
     = (if bool_decide (R ∈ processed_rounds s) then 0
        else if observes_round_active R p then 1 else 0)%nat
  /\ game_results G sent
     = (if bool_decide (G ∈ processed_games s) then 0
        else if observes_game_completed G p then 1 else 0)%nat
  /\ standings_times sent = (if standings_due cfg s p then [poll_now p] else [])
  /\ last_standings_update s'
     = (if standings_due cfg s p then poll_now p else last_standings_update s)
  /\ (is_terminal s = false -> is_terminal s' = poll_completes p).
Proof.
  unfold iteration, observes_round_active, observes_game_completed,
    standings_due, poll_completes.
  destruct (poll_fetch p) as [snap|].
  - pose proof (announce_rounds_spec R (snap_rounds snap) (processed_rounds s)) as Hr.
    pose proof (announce_games_spec G (snap_games snap) (processed_games s)) as Hg.
    destruct (announce_rounds _ _) as [rounds' sent_r].
    destruct (announce_games _ _) as [games' sent_g].
    destruct Hr as (Hr1 & Hr2 & Hr3 & Hr4 & Hr5).
    destruct Hg as (Hg1 & Hg2 & Hg3 & Hg4 & Hg5).
    pose proof (standings_step_spec cfg (last_standings_update s) p) as Hs.
    unfold standings_step in *.
    destruct (poll_standings p) as [st|];
      destruct (standings_update_interval cfg <=? poll_now p - last_standings_update s);
      simpl in *; destruct Hs as (Hs1 & Hs2 & _);
      rewrite !round_starts_app, !game_results_app, !standings_times_app,
        Hr3, Hg3, Hr4, Hg4, Hr5, Hg5, Hs1, Hs2, !Nat.add_0_r;
      repeat split; try assumption; try reflexivity;
      try (apply Hr2); try (apply Hg2);
      try (intros _; unfold is_terminal; simpl; now destruct (snap_status snap)).
  - simpl. repeat split; try set_solver; try (now case_bool_decide); try tauto.
Qed.


(** *** Deduplication, for any kind of notification

    [known s] says the identifier is in the seen set of [s], [obs p] that
    poll [p] observes it, [count] counts its notifications. *)
Section Dedup.
Variable cfg : Settings.
Variable obs : Poll -> bool.
Variable known : State -> bool.
Variable count : list Notification -> nat.
Hypothesis count_app : forall a b, count (a ++ b) = (count a + count b)%nat.
Hypothesis count_nil : count [] = 0%nat.
Hypothesis known_step : forall s p,
  known (fst (iteration cfg s p)) = known s || obs p.
Hypothesis count_step : forall s p,
  count (snd (iteration cfg s p))
  = (if known s then 0 else if obs p then 1 else 0)%nat.

Lemma iteration_terminal (s : State) (p : Poll) :
  is_terminal s = false ->
  is_terminal (fst (iteration cfg s p)) = poll_completes p.
Proof.
  pose proof (iteration_spec cfg s p 0 0) as H.
  destruct (iteration cfg s p) as [s' sent]. apply H.
Qed.

Lemma run_known_silent (polls : list Poll) (s : State) :
  known s = true -> count (notifications (run cfg s polls)) = 0%nat.
Proof.
  revert s. induction polls as [|p rest IH]; intros s Hk; [exact count_nil |].
  unfold notifications in *. simpl.
  pose proof (known_step s p) as Hks. pose proof (count_step s p) as Hcs.
  rewrite Hk in Hks, Hcs. simpl in Hks.
  destruct (iteration cfg s p) as [s' sent]. simpl in Hks, Hcs.
  destruct (is_terminal s').
  - simpl. now rewrite count_app, Hcs, count_nil.
  - specialize (IH s' Hks). destruct (run cfg s' rest) as [s'' later].
    simpl in *. now rewrite count_app, Hcs, IH.
Qed.

Lemma run_count (polls : list Poll) (s : State) :
  is_terminal s = false ->
  count (notifications (run cfg s polls))
  = (if known s then 0 else if existsb obs (executed polls) then 1 else 0)%nat.
Proof.
  revert s. induction polls as [|p rest IH]; intros s Hnt.
  - unfold notifications. simpl. rewrite count_nil. now destruct (known s).
  - destruct (known s) eqn:Hk; [now apply run_known_silent |].
    unfold notifications in *. simpl.
    pose proof (known_step s p) as Hks. pose proof (count_step s p) as Hcs.
    pose proof (iteration_terminal s p Hnt) as Hts.
    rewrite Hk in Hks, Hcs. simpl in Hks.
    destruct (iteration cfg s p) as [s' sent]. simpl in Hks, Hcs, Hts.
    rewrite Hts. destruct (poll_completes p).
    + simpl. rewrite count_app, Hcs, count_nil, orb_false_r. lia.
    + specialize (IH s' Hts). destruct (run cfg s' rest) as [s'' later].
      simpl in *. rewrite count_app, Hcs, IH, Hks.
      destruct (obs p); simpl; [reflexivity |]. reflexivity.
Qed.

Lemma run_iterations (polls : list Poll) (s : State) (i : nat) (sent : list Notification) :
  is_terminal s = false ->
  snd (run cfg s polls) !! i = Some sent ->
  count sent
  = (if known s then 0
     else if first_observation obs (executed polls) i then 1 else 0)%nat.
Proof.
  revert s i. induction polls as [|p rest IH]; intros s i Hnt; [discriminate |].
  simpl.
  pose proof (known_step s p) as Hks. pose proof (count_step s p) as Hcs.
  pose proof (iteration_terminal s p Hnt) as Hts.
  destruct (iteration cfg s p) as [s' first]. simpl in Hks, Hcs, Hts.
  rewrite Hts.
  destruct i as [|i].
  - intros Hi.
    assert (first = sent) as <-
      by (destruct (poll_completes p); [| destruct (run cfg s' rest)];
          simpl in Hi; congruence).
    rewrite Hcs. unfold first_observation. simpl.
    now rewrite andb_true_r.
  - destruct (poll_completes p); [discriminate |].
    specialize (IH s' i Hts). destruct (run cfg s' rest) as [s'' later].
    simpl in *. intros Hi. rewrite (IH Hi), Hks.
    unfold first_observation. simpl.
    destruct (known s); [reflexivity |]. simpl.
    destruct (executed rest !! i) as [q|]; [| now destruct (obs p)].
    destruct (obs p); simpl; [now rewrite andb_false_r | reflexivity].
Qed.

End Dedup.


Lemma knows_round_step (cfg : Settings) (R : Z) (s : State) (p : Poll) :
  knows_round R (fst (iteration cfg s p)) = knows_round R s || observes_round_active R p.
Proof.
  pose proof (iteration_spec cfg s p R 0) as H.
  destruct (iteration cfg s p) as [s' sent]. destruct H as (_ & _ & H & _).
  unfold knows_round. simpl. apply eq_true_iff_eq.
  rewrite orb_true_iff, !bool_decide_eq_true. exact H.
Qed.

Lemma knows_game_step (cfg : Settings) (G : Z) (s : State) (p : Poll) :
  knows_game G (fst (iteration cfg s p)) = knows_game G s || observes_game_completed G p.
Proof.
  pose proof (iteration_spec cfg s p 0 G) as H.
  destruct (iteration cfg s p) as [s' sent]. destruct H as (_ & _ & _ & H & _).
  unfold knows_game. simpl. apply eq_true_iff_eq.
  rewrite orb_true_iff, !bool_decide_eq_true. exact H.
Qed.

Lemma round_starts_step (cfg : Settings) (R : Z) (s : State) (p : Poll) :
  round_starts R (snd (iteration cfg s p))
  = (if knows_round R s then 0 else if observes_round_active R p then 1 else 0)%nat.
Proof.
  pose proof (iteration_spec cfg s p R 0) as H.
  destruct (iteration cfg s p) as [s' sent]. apply H.
Qed.

Lemma game_results_step (cfg : Settings) (G : Z) (s : State) (p : Poll) :
  game_results G (snd (iteration cfg s p))
  = (if knows_game G s then 0 else if observes_game_completed G p then 1 else 0)%nat.
Proof.
  pose proof (iteration_spec cfg s p 0 G) as H.
  destruct (iteration cfg s p) as [s' sent]. apply H.
Qed.

Lemma iteration_monotone (cfg : Settings) (s : State) (p : Poll) :
  processed_rounds s ⊆ processed_rounds (fst (iteration cfg s p))
  /\ processed_games s ⊆ processed_games (fst (iteration cfg s p)).
Proof.
  pose proof (iteration_spec cfg s p 0 0) as H.
  destruct (iteration cfg s p) as [s' sent]. split; apply H.
Qed.

Lemma run_monotone (cfg : Settings) (polls : list Poll) (s : State) :
  processed_rounds s ⊆ processed_rounds (fst (run cfg s polls))
  /\ processed_games s ⊆ processed_games (fst (run cfg s polls)).
Proof.
  revert s. induction polls as [|p rest IH]; intros s; [split; reflexivity |].
  simpl. pose proof (iteration_monotone cfg s p) as [Hr Hg].
  destruct (iteration cfg s p) as [s' sent]. simpl in Hr, Hg.
  destruct (is_terminal s'); [now split |].
  destruct (IH s') as [Hr' Hg']. destruct (run cfg s' rest) as [s'' later].
  simpl in *. split; etransitivity; eassumption.
Qed.

Lemma run_length (cfg : Settings) (polls : list Poll) (s : State) :
  is_terminal s = false ->
  length (snd (run cfg s polls)) = length (executed polls).
Proof.
  revert s. induction polls as [|p rest IH]; intros s Hnt; [reflexivity |].
  simpl. pose proof (iteration_terminal cfg s p Hnt) as Hts.
  destruct (iteration cfg s p) as [s' sent]. simpl in Hts. rewrite Hts.
  destruct (poll_completes p); [reflexivity |].
  specialize (IH s' Hts). destruct (run cfg s' rest). simpl in *. now rewrite IH.
Qed.

(** C1: neither seen set shrinks, in an iteration or over a run; an
    identifier already in a seen set is never announced again, however many
    polls follow; and from startup the loop sends, for every round and every
    game, exactly one notification if some poll that ran observed it (active,
    respectively completed) and none otherwise, that notification being sent
    in the iteration of the first such poll. *)
Theorem seen_sets_deduplicate (cfg : Settings) (s : State) (t0 : Z)
    (polls : list Poll) (R G : Z) :
  (forall p, processed_rounds s ⊆ processed_rounds (fst (iteration cfg s p))
             /\ processed_games s ⊆ processed_games (fst (iteration cfg s p)))
  /\ processed_rounds s ⊆ processed_rounds (fst (run cfg s polls))
  /\ processed_games s ⊆ processed_games (fst (run cfg s polls))
  /\ (R ∈ processed_rounds s -> round_starts R (notifications (run cfg s polls)) = 0%nat)
  /\ (G ∈ processed_games s -> game_results G (notifications (run cfg s polls)) = 0%nat)
  /\ round_starts R (notifications (run cfg (initial_state t0) polls))
     = (if existsb (observes_round_active R) (executed polls) then 1 else 0)%nat
  /\ game_results G (notifications (run cfg (initial_state t0) polls))
     = (if existsb (observes_game_completed G) (executed polls) then 1 else 0)%nat
  /\ length (snd (run cfg (initial_state t0) polls)) = length (executed polls)
  /\ (forall i sent, snd (run cfg (initial_state t0) polls) !! i = Some sent ->
        round_starts R sent
        = (if first_observation (observes_round_active R) (executed polls) i
           then 1 else 0)%nat
        /\ game_results G sent
           = (if first_observation (observes_game_completed G) (executed polls) i
              then 1 else 0)%nat).
Proof.
  split; [intros p; apply iteration_monotone |].
  split; [apply run_monotone |]. split; [apply run_monotone |].
  split.
  { intros HR.
    apply (run_known_silent cfg (observes_round_active R) (knows_round R) (round_starts R)
             (round_starts_app R) eq_refl
             (knows_round_step cfg R) (round_starts_step cfg R)).
    now apply bool_decide_eq_true. }
  split.
  { intros HG.
    apply (run_known_silent cfg (observes_game_completed G) (knows_game G) (game_results G)
             (game_results_app G) eq_refl
             (knows_game_step cfg G) (game_results_step cfg G)).
    now apply bool_decide_eq_true. }
  split.
  { apply (run_count cfg (observes_round_active R) (knows_round R) (round_starts R)
             (round_starts_app R) eq_refl
             (knows_round_step cfg R) (round_starts_step cfg R) polls (initial_state t0)).
    reflexivity. }
  split.
  { apply (run_count cfg (observes_game_completed G) (knows_game G) (game_results G)
             (game_results_app G) eq_refl
             (knows_game_step cfg G) (game_results_step cfg G) polls (initial_state t0)).
    reflexivity. }
  split; [now apply run_length |].
  intros i sent Hi. split.
  - apply (run_iterations cfg (observes_round_active R) (knows_round R) (round_starts R)
             (knows_round_step cfg R) (round_starts_step cfg R)
             polls (initial_state t0) i sent eq_refl Hi).
  - apply (run_iterations cfg (observes_game_completed G) (knows_game G) (game_results G)
             (knows_game_step cfg G) (game_results_step cfg G)
             polls (initial_state t0) i sent eq_refl Hi).
Qed.


(** *** The standings clock *)

Lemma standings_step_of_iteration (cfg : Settings) (s : State) (p : Poll) :
  standings_times (snd (iteration cfg s p))
  = (if standings_due cfg s p then [poll_now p] else [])
  /\ last_standings_update (fst (iteration cfg s p))
     = (if standings_due cfg s p then poll_now p else last_standings_update s).
Proof.
  pose proof (iteration_spec cfg s p 0 0) as H.
  destruct (iteration cfg s p) as [s' sent]. split; apply H.
Qed.

Lemma standings_due_elapsed (cfg : Settings) (s : State) (p : Poll) :
  standings_due cfg s p = true ->
  standings_update_interval cfg <= poll_now p - last_standings_update s.
Proof.
  unfold standings_due. destruct (poll_fetch p), (poll_standings p); try discriminate.
  apply Z.leb_le.
Qed.

Lemma standings_due_fetched (cfg : Settings) (s : State) (p : Poll) :
  is_Some (poll_fetch p) -> is_Some (poll_standings p) ->
  standings_due cfg s p
  = (standings_update_interval cfg <=? poll_now p - last_standings_update s).
Proof.
  intros [snap Hf] [st Hs]. unfold standings_due. now rewrite Hf, Hs.
Qed.

Lemma run_spaced (cfg : Settings) (polls : list Poll) (s : State) :
  spaced (standings_update_interval cfg) (last_standings_update s)
    (standings_times (notifications (run cfg s polls))).
Proof.
  revert s. induction polls as [|p rest IH]; intros s; [exact I |].
  unfold notifications in *. simpl.
  pose proof (standings_step_of_iteration cfg s p) as [Ht Hl].
  pose proof (standings_due_elapsed cfg s p) as Hdue.
  destruct (iteration cfg s p) as [s' sent]. simpl in Ht, Hl.
  assert (spaced (standings_update_interval cfg) (last_standings_update s)
            (standings_times sent)
          /\ forall later,
               spaced (standings_update_interval cfg) (last_standings_update s') later ->
               spaced (standings_update_interval cfg) (last_standings_update s)
                 (standings_times sent ++ later)) as [Hsent Hext].
  { rewrite Ht, Hl. destruct (standings_due cfg s p); simpl; auto. }
  destruct (is_terminal s').
  - simpl. now rewrite app_nil_r.
  - specialize (IH s'). destruct (run cfg s' rest) as [s'' later].
    simpl in *. rewrite standings_times_app. now apply Hext.
Qed.

Lemma executed_cons_inv (p q : Poll) (rest : list Poll) :
  p ∈ executed (q :: rest) ->
  p = q \/ (poll_completes q = false /\ p ∈ executed rest).
Proof.
  simpl. intros [->|Hin]%elem_of_cons; [now left |].
  destruct (poll_completes q); [now apply elem_of_nil in Hin | right; auto].
Qed.

Lemma run_sends_standings (cfg : Settings) (polls : list Poll) (s : State) (p : Poll) :
  is_terminal s = false ->
  p ∈ executed polls ->
  is_Some (poll_fetch p) -> is_Some (poll_standings p) ->
  standings_update_interval cfg <= poll_now p - last_standings_update s ->
  standings_times (notifications (run cfg s polls)) <> [].
Proof.
  revert s. induction polls as [|q rest IH]; intros s Hnt Hin Hf Hs Hle.
  - now apply elem_of_nil in Hin.
  - unfold notifications in *. simpl.
    pose proof (standings_step_of_iteration cfg s q) as [Ht Hl].
    pose proof (iteration_terminal cfg s q Hnt) as Hts.
    destruct (iteration cfg s q) as [s' sent]. simpl in Ht, Hl, Hts.
    assert (standings_times sent = [] ->
            poll_completes q = false /\ p ∈ executed rest
            /\ last_standings_update s' = last_standings_update s) as Hquiet.
    { rewrite Ht, Hl. destruct (standings_due cfg s q) eqn:Hdue; [discriminate |].
      intros _. apply executed_cons_inv in Hin as [->|[Hc Hin]]; [| auto].
      rewrite standings_due_fetched in Hdue by assumption.
      apply Z.leb_gt in Hdue. lia. }
    rewrite Hts. destruct (standings_times sent) as [|t ts] eqn:Hsent.
    + destruct Hquiet as (Hc & Hin' & Hlast); [reflexivity |].
      rewrite Hc in *. specialize (IH s' Hts Hin' Hf Hs).
      rewrite Hlast in IH. specialize (IH Hle).
      destruct (run cfg s' rest) as [s'' later]. simpl in *.
      now rewrite standings_times_app, Hsent.
    + destruct (poll_completes q); [| destruct (run cfg s' rest)]; simpl;
        rewrite standings_times_app, Hsent; discriminate.
Qed.

(** C2: in every iteration a standings notification is sent exactly when
    the fetches succeed and [now - LastStandingsUpdate] has reached the
    interval, and [LastStandingsUpdate] then becomes [now]; over every run,
    whatever rounds and games the polls report, each standings notification
    comes at least one interval after the previous one; and from startup at
    [t0], if an iteration with successful fetches runs at a time at least one
    interval after [t0], at least one standings notification is sent. *)
Theorem standings_throttled (cfg : Settings) (s : State) (t0 : Z)
    (polls : list Poll) (p : Poll) :
  (forall q,
      standings_times (snd (iteration cfg s q))
      = (if standings_due cfg s q then [poll_now q] else [])
      /\ last_standings_update (fst (iteration cfg s q))
         = (if standings_due cfg s q then poll_now q else last_standings_update s))
  /\ (forall q, is_Some (poll_fetch q) -> is_Some (poll_standings q) ->
        (standings_due cfg s q = true
         <-> standings_update_interval cfg <= poll_now q - last_standings_update s))
  /\ spaced (standings_update_interval cfg) (last_standings_update s)
       (standings_times (notifications (run cfg s polls)))
  /\ (p ∈ executed polls ->
      is_Some (poll_fetch p) -> is_Some (poll_standings p) ->
      standings_update_interval cfg <= poll_now p - t0 ->
      standings_times (notifications (run cfg (initial_state t0) polls)) <> []).
Proof.
  split; [intros q; apply standings_step_of_iteration |].
  split; [intros q Hf Hs; rewrite standings_due_fetched by assumption; apply Z.leb_le |].
  split; [apply run_spaced |].
  intros Hin Hf Hs Hle.
  apply (run_sends_standings cfg polls (initial_state t0) p); try assumption; [reflexivity |].
  simpl. unfold hour, minute. lia.
Qed.

(** C7: the tracking state of a starting process is computed from the clock
    alone, [last_standings_update] being one hour before the start [t0]; so
    with an interval of at most 60 minutes, the first iteration, if its
    fetches succeed and the clock has not gone back, sends the standings,
    even at a time when a process that had kept its [LastStandingsUpdate]
    would not have. *)
Theorem restart_resends_standings (cfg : Settings) (t0 : Z) (prev : State)
    (p : Poll) (rest : list Poll) :
  standings_update_interval_minutes cfg <= 60 ->
  t0 <= poll_now p ->
  is_Some (poll_fetch p) -> is_Some (poll_standings p) ->
  last_standings_update (initial_state t0) = t0 - 60 * 60 * 1000000
  /\ standings_times (snd (iteration cfg (initial_state t0) p)) = [poll_now p]
  /\ (exists later,
        standings_times (notifications (run cfg (initial_state t0) (p :: rest)))
        = poll_now p :: later)
  /\ (poll_now p - last_standings_update prev < standings_update_interval cfg ->
      standings_times (snd (iteration cfg prev p)) = []).
Proof.
  intros Hint Hclock Hf Hs.
  assert (standings_due cfg (initial_state t0) p = true) as Hdue.
  { rewrite standings_due_fetched by assumption. apply Z.leb_le.
    unfold standings_update_interval. simpl. unfold hour, minute. lia. }
  pose proof (standings_step_of_iteration cfg (initial_state t0) p) as [Ht _].
  rewrite Hdue in Ht.
  split; [reflexivity |]. split; [exact Ht |]. split.
  - unfold notifications. cbn [run].
    destruct (iteration cfg (initial_state t0) p) as [s' sent]. simpl in Ht.
    destruct (is_terminal s'); [| destruct (run cfg s' rest)]; simpl;
      rewrite standings_times_app, Ht; eauto.
  - intros Hlt. pose proof (standings_step_of_iteration cfg prev p) as [Hp _].
    rewrite Hp, standings_due_fetched by assumption.
    now apply Z.leb_gt in Hlt as ->.
Qed.

End MonitorFacts.


(** * Properties of the Slack notifier *)

Section SlackFacts.
Import Slack.

(** *** Delivery *)

(** C6, as the code has it: [send_message] issues exactly one POST and
    writes one log line; it returns [False], logging an error, when the POST
    raises or the status is between 400 and 599, and [True], logging the
    success, for every other status, 2xx or not. *)
Theorem send_message_outcome (post : Webhook) (self : SlackNotifier)
    (text : string) (blocks attachments : option (list Block)) :
  let payload := build_payload self text blocks attachments in
  let out := send_message post self text blocks attachments in
  sent_posts out = [payload]
  /\ length (sent_log out) = 1%nat
  /\ match post (webhook_url self) payload with
     | PostRaises e =>
         sent_ok out = false
         /\ sent_log out = [LogError "Failed to send Slack message" e]
     | PostResponse status_code =>
         if (400 <=? status_code) && (status_code <? 600)
         then sent_ok out = false
              /\ sent_log out
                 = [LogError "Failed to send Slack message" (HTTPError status_code)]
         else sent_ok out = true
              /\ exists msg, sent_log out = [LogInfo msg]
     end
  /\ (forall status_code,
        post (webhook_url self) payload = PostResponse status_code ->
        200 <= status_code < 300 -> sent_ok out = true).
Proof.
  intros payload out. subst payload out. unfold send_message, raise_for_status.
  destruct (post _ _) as [e|status_code] eqn:Hpost.
  - repeat split. intros ? [=].
  - destruct ((400 <=? status_code) && (status_code <? 600)) eqn:Hrange.
    + repeat split. intros st [= <-] Hst.
      apply andb_true_iff in Hrange as [H1 _]. apply Z.leb_le in H1. lia.
    + repeat split. eauto.
Qed.

(** A response with status 304 is not a 2xx response, and [send_message]
    returns [True] on it. *)
Lemma send_message_true_on_304 :
  let post : Webhook := fun _ _ => PostResponse 304 in
  ~ (200 <= 304 < 300)
  /\ sent_ok (send_message post (mkNotifier "https://hooks.slack.com/services/T" None)
                "Round 1" None None) = true.
Proof. split; [lia | reflexivity]. Qed.

(** *** Sorting in place *)

Section Sorting.
Context {A : Type}.
Variable key : A -> Z.

Lemma insert_by_perm (x : A) (l : list A) : Permutation (insert_by key x l) (x :: l).
Proof.
  induction l as [|y l IH]; simpl; [reflexivity |].
  destruct (key x <=? key y); [reflexivity |].
  rewrite IH. apply perm_swap.
Qed.

Lemma sort_by_perm (l : list A) : Permutation (sort_by key l) l.
Proof.
  induction l as [|x l IH]; simpl; [reflexivity |].
  unfold sort_by in *. simpl. rewrite insert_by_perm. now constructor.
Qed.

Lemma insert_by_hd (x y : A) (l : list A) :
  key y <= key x -> HdRel (key_le key) y l -> HdRel (key_le key) y (insert_by key x l).
Proof.
  intros Hyx Hl. destruct l as [|z l]; simpl.
  - constructor. exact Hyx.
  - destruct (key x <=? key z); constructor; [exact Hyx |].
    now inversion Hl.
Qed.

Lemma insert_by_sorted (x : A) (l : list A) :
  Sorted (key_le key) l -> Sorted (key_le key) (insert_by key x l).
Proof.
  induction 1 as [|y l Hs IH Hhd]; simpl.
  - repeat constructor.
  - destruct (Z.leb_spec (key x) (key y)) as [Hle|Hlt].
    + constructor; [now constructor | now constructor].
    + constructor; [exact IH |]. apply insert_by_hd; [unfold key_le; lia | exact Hhd].
Qed.

Lemma sort_by_sorted (l : list A) : Sorted (key_le key) (sort_by key l).
Proof.
  induction l as [|x l IH]; [constructor |].
  unfold sort_by in *. simpl. now apply insert_by_sorted.
Qed.

Lemma sort_by_strongly_sorted (l : list A) : StronglySorted (key_le key) (sort_by key l).
Proof.
  apply Sorted_StronglySorted; [| apply sort_by_sorted].
  intros a b c. unfold key_le. lia.
Qed.



Lemma sort_in_place_lookup (heap : gmap loc (list A)) (l : loc) (items : list A) :
  heap !! l = Some items ->
  sort_in_place key l heap !! l = Some (sort_by key items)
  /\ deref (sort_in_place key l heap) l = sort_by key items
  /\ forall l', l' <> l -> sort_in_place key l heap !! l' = heap !! l'.
Proof.
  intros Hl. unfold sort_in_place, deref. rewrite lookup_alter_eq, Hl. simpl.
  repeat split. intros l' Hne. now rewrite lookup_alter_ne.
Qed.

End Sorting.


(** *** Machine groups *)

Lemma filter_none {A} (P : A -> Prop) `{forall x, Decision (P x)} (l : list A) :
  (forall x, x ∈ l -> ~ P x) -> filter P l = [].
Proof.
  induction l as [|x l IH]; intros Hno; [reflexivity |].
  rewrite filter_cons_False by (apply Hno; left).
  apply IH. intros y Hy. apply Hno. now right.
Qed.

Lemma group_append_keys (m : string) (a : Assignment)
    (groups : list (string * list Assignment)) :
  (group_append m a groups).*1
  = if bool_decide (m ∈ groups.*1) then groups.*1 else groups.*1 ++ [m].
Proof.
  induction groups as [|[k ms] rest IH]; cbn [group_append].
  - reflexivity.
  - destruct (String.eqb_spec k m) as [->|Hne]; rewrite !fmap_cons; cbn [fst].
    + rewrite bool_decide_eq_true_2 by set_solver. reflexivity.
    + rewrite IH. destruct (decide (m ∈ rest.*1)) as [Hin|Hin].
      * rewrite !bool_decide_eq_true_2 by set_solver. reflexivity.
      * rewrite !bool_decide_eq_false_2 by set_solver. reflexivity.
Qed.

Lemma group_append_elem (m : string) (a : Assignment)
    (groups : list (string * list Assignment)) (k : string) (ms : list Assignment) :
  NoDup groups.*1 ->
  (k, ms) ∈ group_append m a groups ->
  (k <> m /\ (k, ms) ∈ groups)
  \/ (k = m /\ exists ms0, ms = ms0 ++ [a]
                 /\ ((m, ms0) ∈ groups \/ (ms0 = [] /\ m ∉ groups.*1))).
Proof.
  induction groups as [|[k' ms'] rest IH]; cbn [group_append]; intros Hnd Hin.
  - apply list_elem_of_singleton in Hin as [= -> ->].
    right. split; [reflexivity |]. exists []. split; [reflexivity |].
    right. split; [reflexivity | set_solver].
  - rewrite fmap_cons in Hnd. cbn [fst] in Hnd. apply NoDup_cons in Hnd as [Hk' Hnd].
    destruct (String.eqb_spec k' m) as [->|Hne].
    + apply elem_of_cons in Hin as [[= -> ->]|Hin].
      * right. split; [reflexivity |]. exists ms'. split; [reflexivity |].
        left. set_solver.
      * left. split; [| set_solver]. intros ->. apply Hk'.
        apply list_elem_of_fmap. now exists (m, ms).
    + apply elem_of_cons in Hin as [[= -> ->]|Hin].
      * left. split; [assumption | set_solver].
      * destruct (IH Hnd Hin) as [[Hkm Hold]|[-> [ms0 [-> Hcase]]]].
        -- left. split; [assumption | set_solver].
        -- right. split; [reflexivity |]. exists ms0. split; [reflexivity |].
           destruct Hcase as [?|[-> ?]]; [left; set_solver | right; set_solver].
Qed.

Lemma grouped_step (prefix : list Assignment) acc (a : Assignment) :
  grouped prefix acc ->
  grouped (prefix ++ [a]) (group_append (machine_of a) a (fst acc), Some a).
Proof.
  intros (Hnd & Hcov & Hmem & Hlast). unfold grouped. simpl.
  rewrite group_append_keys. repeat split.
  - case_bool_decide; [assumption |].
    apply NoDup_app. repeat split; [assumption | set_solver | apply NoDup_singleton].
  - intros b [Hb| ->%list_elem_of_singleton]%elem_of_app.
    + case_bool_decide; [now apply Hcov | apply elem_of_app; left; now apply Hcov].
    + case_bool_decide; [assumption | set_solver].
  - apply group_append_elem in H as [[Hne Hold]|[-> [ms0 [-> _]]]]; [| | assumption].
    + now apply Hmem in Hold.
    + now destruct ms0.
  - apply group_append_elem in H as [[Hne Hold]|[-> [ms0 [-> Hcase]]]]; [| | assumption].
    + apply Hmem in Hold as [_ ->]. rewrite filter_app, filter_cons_False, filter_nil.
      * now rewrite app_nil_r.
      * congruence.
    + rewrite filter_app, filter_cons_True, filter_nil by reflexivity. f_equal.
      destruct Hcase as [Hold|[-> Hnew]].
      * now apply Hmem in Hold.
      * symmetry. apply filter_none. intros b Hb Hm.
        apply Hnew. rewrite <- Hm. now apply Hcov.
  - now rewrite last_snoc.
Qed.

Lemma group_assignments_grouped (player_assignments : list Assignment) :
  grouped player_assignments (group_assignments player_assignments).
Proof.
  unfold group_assignments.
  induction player_assignments as [|a prefix IH] using rev_ind.
  - repeat split; simpl; try set_solver. apply NoDup_nil_2.
  - rewrite fold_left_app. simpl. now apply grouped_step.
Qed.


(** *** The loop over the groups and its leaked variable *)

Lemma players_loop_text (assignments : list Assignment) (idx : nat) (text : string)
    (b b' : option Assignment) :
  fst (players_loop idx assignments text b) = fst (players_loop idx assignments text b').
Proof. destruct assignments as [|a rest]; reflexivity. Qed.

Lemma players_loop_bound (assignments : list Assignment) (idx : nat) (text : string)
    (b : option Assignment) :
  snd (players_loop idx assignments text b)
  = match last assignments with
    | Some a => Some a
    | None => b
    end.
Proof.
  revert idx text b. induction assignments as [|a rest IH]; intros idx text b.
  - reflexivity.
  - cbn [players_loop]. rewrite IH, last_cons. now destruct (last rest).
Qed.

Lemma groups_loop_rendering (groups : list (string * list Assignment))
    (bound : option Assignment) (blocks : list Block) :
  Forall (fun g => snd g <> []) groups ->
  groups_loop groups bound blocks
  = Return (blocks ++ concat (map group_rendering groups)).
Proof.
  intros Hne. revert bound blocks.
  induction Hne as [|[machine members] rest Hm _ IH]; intros bound blocks.
  - simpl. now rewrite app_nil_r.
  - cbn [groups_loop].
    pose proof (players_loop_text members 0 "" bound None) as Htext.
    pose proof (players_loop_bound members 0 "" bound) as Hbound.
    destruct (players_loop 0 members "" bound) as [player_text bound'].
    simpl in Htext, Hbound, Hm. subst player_text bound'.
    destruct (last members) as [a|] eqn:Hlast.
    + rewrite IH. unfold group_rendering at 2. simpl. rewrite Hlast.
      unfold players_text. now rewrite <- !app_assoc.
    + apply last_None in Hlast. contradiction.
Qed.

Lemma grouped_nonempty (prefix : list Assignment) acc :
  grouped prefix acc -> Forall (fun g => snd g <> []) (fst acc).
Proof.
  intros (_ & _ & Hmem & _). apply Forall_forall. intros [k ms] Hin.
  now apply Hmem in Hin.
Qed.

Lemma tip_text_first_three (tips : list string) : tip_text tips = tip_text (take 3 tips).
Proof. unfold tip_text. now rewrite take_take. Qed.

(** C9: [notify_round_start] never fails at the leaked variable; every
    machine group is non-empty and holds the assignments of its machine in
    order; the blocks are the header, then for each group the players
    section, a tips section and a divider, then the footer, where the tips
    section is there exactly when the ['pintips'] of the last assignment of
    the group is a non-empty list, whatever the earlier assignments of the
    group hold, and lists its first three tips at most. *)
Theorem round_start_tips_follow_last_assignment (round_name tournament_name : string)
    (player_assignments : list Assignment) :
  let groups := fst (group_assignments player_assignments) in
  let tips_header := "💡 *Tips:*" +:+ nl in
  let tips_section := fun a : Assignment =>
    match pintips a with
    | None | Some [] => []
    | Some [t1] =>
        [SectionBlock (tips_header +:+ "• " +:+ t1 +:+ nl)]
    | Some [t1; t2] =>
        [SectionBlock ((tips_header +:+ "• " +:+ t1 +:+ nl) +:+ "• " +:+ t2 +:+ nl)]
    | Some (t1 :: t2 :: t3 :: _) =>
        [SectionBlock (((tips_header +:+ "• " +:+ t1 +:+ nl) +:+ "• " +:+ t2 +:+ nl)
                       +:+ "• " +:+ t3 +:+ nl)]
    end in
  (forall machine members, (machine, members) ∈ groups ->
     members = filter (fun a => machine_of a = machine) player_assignments
     /\ exists a, last members = Some a)
  /\ round_blocks round_name player_assignments tournament_name
     = Return (round_header round_name tournament_name
               ++ concat
                    (map (fun g =>
                            machine_section (fst g) (players_text (snd g))
                            :: match last (snd g) with
                               | Some a => tips_section a
                               | None => []
                               end
                            ++ [Divider])
                       groups)
               ++ [round_footer])
  /\ (forall post self,
        exists blocks,
          round_blocks round_name player_assignments tournament_name = Return blocks
          /\ notify_round_start post self round_name player_assignments tournament_name
             = Return (send_message post self
                         ("New Round Starting: " +:+ round_name +:+ " - " +:+ tournament_name)
                         (Some blocks) None))
  /\ (forall a, tips_section a = [] <-> pintips a = None \/ pintips a = Some [])
  /\ (forall a t ts, pintips a = Some (t :: ts) ->
        exists text, tips_section a = [SectionBlock text]).
Proof.
  intros groups tips_header tips_section.
  pose proof (group_assignments_grouped player_assignments) as Hg.
  assert (forall a, tips_blocks a = tips_section a) as Htips.
  { intros a. unfold tips_blocks, has_pintips, tip_text. subst tips_section. simpl.
    destruct (pintips a) as [[|t1 [|t2 [|t3 ts]]]|]; reflexivity. }
  assert (round_blocks round_name player_assignments tournament_name
          = Return (round_header round_name tournament_name
                    ++ concat (map group_rendering groups) ++ [round_footer])) as Hblocks.
  { unfold round_blocks. subst groups.
    pose proof (grouped_nonempty _ _ Hg) as Hne.
    destruct (group_assignments player_assignments) as [machine_groups bound].
    simpl in *. rewrite (groups_loop_rendering _ _ _ Hne).
    unfold mbind, Result_bind. reflexivity. }
  assert (forall g, group_rendering g
            = machine_section (fst g) (players_text (snd g))
              :: match last (snd g) with
                 | Some a => tips_section a
                 | None => []
                 end ++ [Divider]) as Hrender.
  { intros g. unfold group_rendering. destruct (last (snd g)); [| reflexivity].
    now rewrite Htips. }
  split; [| split; [| split; [| split]]].
  - intros machine members Hin. destruct Hg as (_ & _ & Hmem & _).
    destruct (Hmem _ _ Hin) as [Hne Hfilter]. split; [exact Hfilter |].
    destruct (last members) as [a|] eqn:Hlast; [eauto |].
    apply last_None in Hlast. contradiction.
  - rewrite (List.map_ext _ _ Hrender) in Hblocks. exact Hblocks.
  - intros post self. eexists. split; [exact Hblocks |].
    unfold notify_round_start. now rewrite Hblocks.
  - intros a. subst tips_section. simpl.
    destruct (pintips a) as [[|t1 [|t2 [|t3 ts]]]|]; split;
      try discriminate; try (intros [?|?]; discriminate); auto.
  - intros a t ts Hp. subst tips_section. simpl. rewrite Hp.
    destruct ts as [|t2 [|t3 ts']]; eauto.
Qed.


(** *** The caller's list after a notification *)


(** *** The standings shown *)

Lemma table_text_snoc (shown : list StandingEntry) (e : StandingEntry) :
  table_text (shown ++ [e]) = table_text shown +:+ standing_line e.
Proof. unfold table_text. now rewrite fold_left_app. Qed.

(** C10, for a count that is not negative: the entries rendered are the
    first [top_n] of the caller's list once sorted, one line each; their
    number is the smaller of [top_n] and the length of the list, and it is
    the number the message announces. *)
Theorem standings_show_top_n (post : Webhook) (self : SlackNotifier)
    (heap : gmap loc (list StandingEntry)) (standings : loc)
    (tournament_name : string) (top_n : Z) (entries : list StandingEntry) :
  heap !! standings = Some entries ->
  0 <= top_n ->
  let shown := take (Z.to_nat top_n) (sort_by standing_key entries) in
  top_standings heap standings top_n = shown
  /\ snd (notify_tournament_standings post self heap standings tournament_name top_n)
     = send_message post self ("Current Tournament Standings - " +:+ tournament_name)
         (Some [ Header "📊 Current Tournament Standings";
                 SectionBlock (standings_intro tournament_name (length shown));
                 Divider;
                 SectionBlock (table_text shown);
                 ContextBlock
                   "View complete standings in the MatchPlay Events app or website." ])
         None
  /\ table_text [] = ""
  /\ (forall l e, table_text (l ++ [e]) = table_text l +:+ standing_line e)
  /\ Z.of_nat (length shown) = Z.min top_n (Z.of_nat (length entries))
  /\ Z.of_nat (length shown) <= top_n
  /\ (Z.of_nat (length entries) < top_n ->
      shown = sort_by standing_key entries /\ Z.of_nat (length shown) < top_n).
Proof.
  intros Hheap Hn shown.
  pose proof (sort_in_place_lookup standing_key heap standings entries Hheap)
    as (_ & Hderef & _).
  assert (top_standings heap standings top_n = shown) as Htop.
  { unfold top_standings, slice_to. rewrite Hderef.
    destruct (Z.ltb_spec top_n 0); [lia | reflexivity]. }
  assert (length (sort_by standing_key entries) = length entries) as Hlen
    by apply Permutation_length, sort_by_perm.
  assert (Z.of_nat (length shown) = Z.min top_n (Z.of_nat (length entries))) as Hshown.
  { subst shown. rewrite length_take, Hlen. lia. }
  split; [exact Htop |]. split.
  { unfold notify_tournament_standings. simpl. fold (top_standings heap standings top_n).
    now rewrite Htop. }
  split; [reflexivity |]. split; [apply table_text_snoc |].
  split; [exact Hshown |]. split; [lia |].
  intros Hshort. split; [| lia].
  subst shown. apply take_ge. lia.
Qed.

(** With [top_n = -1] and two entries, one entry is rendered: more than
    [top_n]. *)
Lemma standings_negative_top_n :
  let heap : gmap loc (list StandingEntry) :=
    {[ 0%nat := [ mkStandingEntry (Some 1) (Some "Ann") (Some 12) (Some 3);
                  mkStandingEntry (Some 2) (Some "Bob") (Some 9) (Some 3) ] ]} in
  length (top_standings heap 0%nat (-1)) = 1%nat
  /\ ~ (Z.of_nat (length (top_standings heap 0%nat (-1))) <= -1).
Proof. split; [reflexivity | vm_compute; intros H; now apply H]. Qed.


End SlackFacts.


(** * Properties of the configuration loading *)

Section ConfigFacts.
Import Config.



(** The other failures of [open] and of the parser are not caught. *)
Lemma load_config_propagates (json_load : string -> Result Json)
    (open_config : Result string) (e : PyExc) :
  (text ← open_config; json_load text) = Raise e ->
  caught e = false ->
  load_config json_load open_config = (Raise e, []).
Proof. intros He Hc. unfold load_config. now rewrite He, Hc. Qed.

End ConfigFacts.


(** * Instances *)

Section Instances.
Import Url Monitor Slack.

Lemma extract_tournament_id_never_raises_witness :
  exists r, Url.extract_tournament_id Url.basic_decimal 4300 (PyInt 12345) = Return r
            /\ r = None.
Proof.
  destruct (extract_tournament_id_never_raises Url.basic_decimal 4300 (PyInt 12345))
    as [r [Hr [Hother _]]].
  exists r. split; [exact Hr | apply Hother; discriminate].
Defined.

Lemma basic_decimal_range (c d : Z) : Url.basic_decimal c = Some d -> 0 <= d <= 9.
Proof.
  unfold Url.basic_decimal.
  destruct (Z.leb_spec 48 c), (Z.leb_spec c 57); simpl;
    [intros [= <-]; lia | | |];
    (destruct (Z.leb_spec 1632 c), (Z.leb_spec c 1641); simpl;
     [intros [= <-]; lia | discriminate ..]).
Defined.

(** With the limit of 4300 digits and the digit table at hand, on the URL
    of the specification. *)
Lemma extract_tournament_id_first_match_witness :
  (4300 = 0 \/ 640 <= 4300)
  /\ Url.extract_tournament_id Url.basic_decimal 4300
       (PyStr (Url.code_points "https://matchplay.events/tournaments/12345/view"))
     = Return (Some 12345).
Proof.
  assert (4300 = 0 \/ 640 <= 4300) as Hlimit by (right; lia).
  split; [exact Hlimit |].
  destruct (extract_tournament_id_first_match Url.basic_decimal 4300 []
              (fun c _ => eq_refl) Hlimit) as (_ & _ & _ & _ & Hexample & _).
  exact Hexample.
Defined.

(** Digits outside ASCII are digits: the Arabic-Indic writing of 123. *)
Example extract_arabic_indic_digits :
  Url.extract_tournament_id Url.basic_decimal 4300
    (PyStr (Url.code_points "https://matchplay.events/tournaments/" ++ [1633; 1634; 1635]))
  = Return (Some 123).
Proof. vm_compute. reflexivity. Qed.

(** Round 1 is in the seen set: two polls that both list it as active send
    nothing for it. *)
Lemma seen_sets_deduplicate_witness :
  let poll := mkPoll 0 (Some (mkSnapshot InProgress [mkRound 1 RoundActive []] [])) None in
  let s := mkState 0 {[ 1 ]} ∅ None in
  1 ∈ processed_rounds s
  /\ round_starts 1 (notifications (run default_settings s [poll; poll])) = 0%nat.
Proof.
  intros poll s.
  assert (1 ∈ processed_rounds s) as Hin by (simpl; set_solver).
  split; [exact Hin |].
  destruct (seen_sets_deduplicate default_settings s 0 [poll; poll] 1 1)
    as (_ & _ & _ & Hsilent & _).
  exact (Hsilent Hin).
Defined.

(** Forty minutes after the start, with the default interval of thirty. *)
Lemma standings_throttled_witness :
  let p := mkPoll (40 * minute) (Some (mkSnapshot InProgress [] [])) (Some []) in
  p ∈ executed [p]
  /\ standings_update_interval default_settings <= poll_now p - 0
  /\ standings_times (notifications (run default_settings (initial_state 0) [p])) <> [].
Proof.
  intros p.
  assert (p ∈ executed [p]) as Hin by (simpl; set_solver).
  assert (standings_update_interval default_settings <= poll_now p - 0) as Hle
    by (vm_compute; discriminate).
  split; [exact Hin |]. split; [exact Hle |].
  destruct (standings_throttled default_settings (initial_state 0) 0 [p] p)
    as (_ & _ & _ & Hsent).
  apply Hsent; [exact Hin | eexists; reflexivity | eexists; reflexivity | exact Hle].
Defined.

(** A process that sent standings at time 0 restarts one minute later and
    polls another minute later. *)
Lemma restart_resends_standings_witness :
  let prev := mkState 0 ∅ ∅ (Some InProgress) in
  let p := mkPoll (2 * minute) (Some (mkSnapshot InProgress [] [])) (Some []) in
  standings_times (snd (iteration default_settings (initial_state minute) p))
  = [2 * minute]
  /\ standings_times (snd (iteration default_settings prev p)) = [].
Proof.
  intros prev p.
  destruct (restart_resends_standings default_settings minute prev p [])
    as (_ & Hsent & _ & Hquiet).
  - vm_compute. discriminate.
  - vm_compute. discriminate.
  - eexists. reflexivity.
  - eexists. reflexivity.
  - split; [exact Hsent |]. apply Hquiet. reflexivity.
Defined.

Lemma send_message_outcome_witness :
  let post : Webhook := fun _ _ => PostResponse 200 in
  sent_ok (send_message post (mkNotifier "https://hooks.slack.com/services/T" None)
             "Round 1" None None) = true.
Proof.
  intros post.
  destruct (send_message_outcome post (mkNotifier "https://hooks.slack.com/services/T" None)
              "Round 1" None None) as (_ & _ & _ & Hok).
  apply (Hok 200); [reflexivity | lia].
Defined.


(** Two players on one machine.  The tips of the first player are not
    shown, the last player having none; with the players the other way
    round, the first three of the four tips are shown. *)
Lemma round_start_tips_follow_last_assignment_witness :
  let tips := Some ["one"; "two"; "three"; "four"] in
  let tipped := mkAssignment (Some "Jaws") (Some "Ann") tips in
  let plain := mkAssignment (Some "Jaws") (Some "Bob") None in
  round_blocks "Round 1" [tipped; plain] "Open"
  = Return (round_header "Round 1" "Open"
            ++ [ machine_section "Jaws" (players_text [tipped; plain]);
                 Divider;
                 round_footer ])
  /\ round_blocks "Round 1" [plain; tipped] "Open"
     = Return (round_header "Round 1" "Open"
               ++ [ machine_section "Jaws" (players_text [plain; tipped]);
                    SectionBlock ("💡 *Tips:*" +:+ nl +:+ "• one" +:+ nl +:+ "• two" +:+ nl
                                  +:+ "• three" +:+ nl);
                    Divider;
                    round_footer ]).
Proof.
  intros tips tipped plain. split.
  - destruct (round_start_tips_follow_last_assignment "Round 1" "Open" [tipped; plain])
      as (_ & Hblocks & _).
    etransitivity; [exact Hblocks | vm_compute; reflexivity].
  - destruct (round_start_tips_follow_last_assignment "Round 1" "Open" [plain; tipped])
      as (_ & Hblocks & _).
    etransitivity; [exact Hblocks | vm_compute; reflexivity].
Defined.

Lemma standings_show_top_n_witness :
  let post : Webhook := fun _ _ => PostResponse 200 in
  let self := mkNotifier "https://hooks.slack.com/services/T" None in
  let a := mkStandingEntry (Some 1) (Some "Ann") (Some 12) (Some 3) in
  let b := mkStandingEntry (Some 2) (Some "Bob") (Some 9) (Some 3) in
  let c := mkStandingEntry None (Some "Cy") None None in
  let heap : gmap loc (list StandingEntry) := {[ 0%nat := [c; b; a] ]} in
  top_standings heap 0%nat 2 = [a; b]
  /\ Z.of_nat (length (take (Z.to_nat 2) (sort_by standing_key [c; b; a]))) <= 2.
Proof.
  intros post self a b c heap.
  destruct (standings_show_top_n post self heap 0%nat "Open" 2 [c; b; a])
    as (Htop & _ & _ & _ & _ & Hle & _); [reflexivity | lia |].
  split; [exact Htop | exact Hle].
Defined.

(** The end-to-end scenarios of the specification.  Poll 1 sees round A
    active; poll 2 sees A still active and B newly active: one notification
    per iteration, for A and then for B, and both are in the seen set. *)
Example two_rounds_scenario :
  let round_a := mkRound 1 RoundActive [] in
  let round_b := mkRound 2 RoundActive [] in
  let poll1 := mkPoll 0 (Some (mkSnapshot InProgress [round_a] [])) None in
  let poll2 := mkPoll 300000000 (Some (mkSnapshot InProgress [round_a; round_b] [])) None in
  let r := run default_settings (initial_state 0) [poll1; poll2] in
  snd r = [[RoundStart round_a]; [RoundStart round_b]]
  /\ elements (processed_rounds (fst r)) ≡ₚ [1; 2].
Proof. split; [reflexivity | vm_compute; apply perm_swap]. Qed.

(** Games G1 (completed) and G2 (pending) on poll 1, G2 completed on
    poll 2: G1 is reported in the first iteration and G2 in the second. *)
Example two_games_scenario :
  let g1 := mkGame 1 GameCompleted "Godzilla" [] in
  let g2 := mkGame 2 GamePending "Jaws" [] in
  let g2' := mkGame 2 GameCompleted "Jaws" [] in
  let poll1 := mkPoll 0 (Some (mkSnapshot InProgress [] [g1; g2])) None in
  let poll2 := mkPoll 300000000 (Some (mkSnapshot InProgress [] [g1; g2'])) None in
  snd (run default_settings (initial_state 0) [poll1; poll2])
  = [[GameResult g1]; [GameResult g2']].
Proof. reflexivity. Qed.

(** Tips on the first player of a machine are not shown when the last
    player of that machine has none; tips on the last one are, three at
    most. *)
Example tips_of_last_assignment_only :
  let tips := Some ["one"; "two"; "three"; "four"] in
  let tipped := mkAssignment (Some "Jaws") (Some "Ann") tips in
  let plain := mkAssignment (Some "Jaws") (Some "Bob") None in
  group_rendering ("Jaws", [tipped; plain])
  = [machine_section "Jaws" (players_text [tipped; plain]); Divider]
  /\ group_rendering ("Jaws", [plain; tipped])
     = [machine_section "Jaws" (players_text [plain; tipped]);
        SectionBlock ("💡 *Tips:*" +:+ nl +:+ "• one" +:+ nl +:+ "• two" +:+ nl
                      +:+ "• three" +:+ nl);
        Divider].
Proof. split; reflexivity. Qed.

End Instances.


(** * Further properties of the Slack notifier *)

Section MoreSlackFacts.
Import Slack.

(** *** The shared logger *)

Lemma setup_logging_configured (logger : Logger) :
  logger_handlers logger <> [] -> setup_logging logger = logger.
Proof. unfold setup_logging. now destruct (logger_handlers logger). Qed.

Lemma setup_logging_twice (logger : Logger) :
  setup_logging (setup_logging logger) = setup_logging logger.
Proof.
  unfold setup_logging.
  destruct (logger_handlers logger) eqn:Hh; simpl; [reflexivity | now rewrite Hh].
Qed.

Lemma new_notifiers_logger (args : list (string * option string)) (logger : Logger) :
  snd (new_notifiers logger args)
  = match args with
    | [] => logger
    | _ :: _ => setup_logging logger
    end.
Proof.
  revert logger. induction args as [|[url ch] rest IH]; intros logger; [reflexivity |].
  simpl. specialize (IH (setup_logging logger)).
  destruct (new_notifiers (setup_logging logger) rest) as [ns logger''].
  simpl in *. subst logger''. destruct rest; [reflexivity |].
  apply setup_logging_twice.
Qed.

Lemma new_notifiers_fields (args : list (string * option string)) (logger : Logger) :
  map (fun n => (webhook_url n, channel n)) (fst (new_notifiers logger args)) = args.
Proof.
  revert logger. induction args as [|[url ch] more IH]; intros logger; [reflexivity |].
  simpl. specialize (IH (setup_logging logger)).
  destruct (new_notifiers (setup_logging logger) more). simpl in *. now rewrite IH.
Qed.

(** X1: constructing notifiers, however many, attaches one stream handler
    to the shared logger and sets its level to INFO if the logger had no
    handler, and leaves a logger that already has a handler exactly as it
    was, level included; every notifier keeps the URL and channel it was
    given. *)
Theorem notifiers_share_one_handler (logger : Logger) (first : string * option string)
    (rest : list (string * option string)) :
  let '(notifiers, logger') := new_notifiers logger (first :: rest) in
  (logger_handlers logger = [] ->
     logger' = {| logger_handlers := [stream_handler]; logger_level := INFO |})
  /\ (logger_handlers logger <> [] -> logger' = logger)
  /\ (length (logger_handlers logger') = Nat.max 1 (length (logger_handlers logger)))
  /\ map (fun n => (webhook_url n, channel n)) notifiers = first :: rest.
Proof.
  pose proof (new_notifiers_logger (first :: rest) logger) as Hl.
  pose proof (new_notifiers_fields (first :: rest) logger) as Hn.
  destruct (new_notifiers logger (first :: rest)) as [notifiers logger'].
  simpl in Hl, Hn. subst logger'. unfold setup_logging.
  destruct (logger_handlers logger) as [|h hs] eqn:Hh; repeat split; try done.
  rewrite Hh. simpl. lia.
Qed.


(** *** What is posted *)

(** X2: the payload posted always carries the text; it carries a channel
    exactly when the notifier has a non-empty one, blocks exactly when a
    non-empty list was passed, and attachments likewise: an empty string or
    list is left out just as [None] is. *)
Theorem payload_omits_empty_values (post : Webhook) (self : SlackNotifier)
    (text : string) (blocks attachments : option (list Block)) :
  exists payload,
    sent_posts (send_message post self text blocks attachments) = [payload]
    /\ pl_text payload = text
    /\ (pl_channel payload = None <-> channel self = None \/ channel self = Some "")
    /\ (forall c, pl_channel payload = Some c <-> channel self = Some c /\ c <> "")
    /\ (pl_blocks payload = None <-> blocks = None \/ blocks = Some [])
    /\ (forall bs, pl_blocks payload = Some bs <-> blocks = Some bs /\ bs <> [])
    /\ (pl_attachments payload = None <-> attachments = None \/ attachments = Some [])
    /\ (forall bs, pl_attachments payload = Some bs <-> attachments = Some bs /\ bs <> []).
Proof.
  exists (build_payload self text blocks attachments). split.
  { unfold send_message, raise_for_status.
    destruct (post _ _) as [e|st]; [reflexivity |].
    now destruct ((400 <=? st) && (st <? 600)). }
  split; [reflexivity |]. unfold build_payload. simpl.
  destruct (channel self) as [[|c0 c]|], blocks as [[|b0 bs0]|], attachments as [[|a0 as0]|];
    simpl; repeat split; try done; try (intros [?|?]; done);
    try (intros [? ?]; done); try (intros [= <-]; done); try (intuition congruence);
    try (left; done); try (right; done).
Qed.

End MoreSlackFacts.


Section GroupFacts.
Import Slack.

(** *** The machine groups of a round *)

Lemma group_append_members (m : string) (a : Assignment)
    (groups : list (string * list Assignment)) :
  concat (group_append m a groups).*2 ≡ₚ a :: concat groups.*2.
Proof.
  induction groups as [|[k ms] rest IH]; cbn [group_append].
  - reflexivity.
  - destruct (String.eqb k m); rewrite !fmap_cons; cbn [snd concat].
    + rewrite <- app_assoc. symmetry. apply Permutation_middle.
    + rewrite IH. symmetry. apply Permutation_middle.
Qed.

Lemma group_assignments_members (player_assignments : list Assignment) :
  concat (fst (group_assignments player_assignments)).*2 ≡ₚ player_assignments.
Proof.
  unfold group_assignments.
  induction player_assignments as [|a prefix IH] using rev_ind; [reflexivity |].
  rewrite fold_left_app. simpl. rewrite group_append_members, IH.
  apply Permutation_cons_append.
Qed.

Lemma group_assignments_app (l1 l2 : list Assignment) :
  (fst (group_assignments l1)).*1 `prefix_of` (fst (group_assignments (l1 ++ l2))).*1.
Proof.
  unfold group_assignments. rewrite fold_left_app.
  generalize (fold_left
    (fun acc a => (group_append (machine_of a) a (fst acc), Some a)) l1 ([], None)).
  induction l2 as [|a l2 IH]; intros acc; [reflexivity |].
  simpl. etransitivity; [| apply IH]. simpl.
  rewrite group_append_keys. case_bool_decide; [reflexivity |].
  now apply prefix_app_r.
Qed.


(** X3: the machine groups partition the assignments of a round: the
    machines are pairwise distinct and are exactly the machines that occur,
    in order of first appearance (the machines of a prefix of the assignments
    are a prefix of the machines of the whole), every assignment lands in
    exactly one group, and an assignment without ['machine_name'] lands in the
    group ["Unknown Machine"]. *)
Theorem machine_groups_partition (player_assignments : list Assignment) :
  let groups := fst (group_assignments player_assignments) in
  NoDup groups.*1
  /\ concat groups.*2 ≡ₚ player_assignments
  /\ (forall k, k ∈ groups.*1 <-> exists a, a ∈ player_assignments /\ machine_of a = k)
  /\ (forall l1 l2, player_assignments = l1 ++ l2 ->
        (fst (group_assignments l1)).*1 `prefix_of` groups.*1)
  /\ (forall a, a ∈ player_assignments -> machine_name a = None ->
        exists members, ("Unknown Machine", members) ∈ groups /\ a ∈ members).
Proof.
  intros groups. subst groups.
  destruct (group_assignments_grouped player_assignments) as (Hnd & Hcov & Hmem & _).
  assert (forall k a, a ∈ player_assignments -> machine_of a = k ->
            exists members, (k, members) ∈ fst (group_assignments player_assignments)
                            /\ a ∈ members) as Hfind.
  { intros k a Ha Hk. specialize (Hcov a Ha). rewrite Hk in Hcov.
    apply list_elem_of_fmap in Hcov as [[k' ms] [-> Hin]].
    exists ms. split; [exact Hin |]. apply Hmem in Hin as [_ ->].
    apply list_elem_of_filter. split; [exact Hk | exact Ha]. }
  split; [exact Hnd |]. split; [apply group_assignments_members |].
  split; [| split].
  - intros k. split.
    + intros [[k' ms] [-> Hin]]%list_elem_of_fmap.
      destruct (Hmem _ _ Hin) as [Hne Hms].
      destruct ms as [|a ms]; [contradiction |]. exists a.
      assert (a ∈ filter (fun a0 => machine_of a0 = k') player_assignments) as Ha
        by (rewrite <- Hms; left).
      apply list_elem_of_filter in Ha as [Hk Ha]. auto.
    + intros [a [Ha Hk]]. rewrite <- Hk. now apply Hcov.
  - intros l1 l2 ->. apply group_assignments_app.
  - intros a Ha Hname. apply (Hfind "Unknown Machine" a Ha).
    unfold machine_of. now rewrite Hname.
Qed.

(** *** The blocks of a round start *)

Lemma round_blocks_rendering (round_name tournament_name : string)
    (player_assignments : list Assignment) :
  round_blocks round_name player_assignments tournament_name
  = Return (round_header round_name tournament_name
            ++ concat (map group_rendering (fst (group_assignments player_assignments)))
            ++ [round_footer]).
Proof.
  unfold round_blocks.
  pose proof (grouped_nonempty _ _ (group_assignments_grouped player_assignments)) as Hne.
  destruct (group_assignments player_assignments) as [machine_groups bound].
  simpl in *. rewrite (groups_loop_rendering _ _ _ Hne). reflexivity.
Qed.

Lemma group_rendering_length (groups : list (string * list Assignment)) :
  length (concat (map group_rendering groups))
  = (2 * length groups + length (filter (fun g => group_tipped g = true) groups))%nat.
Proof.
  induction groups as [|g rest IH]; [reflexivity |].
  cbn [map concat]. rewrite length_app, IH, filter_cons.
  unfold group_rendering at 1. rewrite length_cons, length_app. simpl.
  unfold tips_blocks. case_decide as Htip; unfold group_tipped in Htip;
    destruct (last (snd g)) as [a|]; try done;
    try (destruct (has_pintips a); try done); simpl; lia.
Qed.

Lemma groups_fewer_than_members (groups : list (string * list Assignment)) :
  Forall (fun g => snd g <> []) groups ->
  (length groups <= length (concat groups.*2))%nat.
Proof.
  induction 1 as [|[k ms] rest Hne _ IH]; [reflexivity |].
  rewrite fmap_cons. cbn [snd concat]. rewrite length_app. simpl in *.
  destruct ms; [contradiction |]. simpl. lia.
Qed.

(** X4: [notify_round_start] always builds its blocks; their number is
    four (header, introduction, divider, footer) plus two per machine plus
    one per machine whose last assignment has tips, hence four for a round
    without assignments and at most four plus three per assignment. *)
Theorem round_start_block_count (round_name tournament_name : string)
    (player_assignments : list Assignment) :
  let groups := fst (group_assignments player_assignments) in
  exists blocks,
    round_blocks round_name player_assignments tournament_name = Return blocks
    /\ length blocks
       = (4 + 2 * length groups
          + length (filter (fun g => group_tipped g = true) groups))%nat
    /\ (length groups <= length player_assignments)%nat
    /\ (length blocks <= 4 + 3 * length player_assignments)%nat
    /\ (player_assignments = [] -> length blocks = 4%nat).
Proof.
  intros groups. eexists. split; [apply round_blocks_rendering |].
  fold groups.
  assert (length groups <= length player_assignments)%nat as Hfew.
  { rewrite <- (Permutation_length (group_assignments_members player_assignments)).
    apply groups_fewer_than_members.
    apply (grouped_nonempty _ _ (group_assignments_grouped player_assignments)). }
  pose proof (length_filter (fun g => group_tipped g = true) groups) as Htip.
  rewrite !length_app, group_rendering_length. simpl.
  repeat split; try lia.
  intros ->. reflexivity.
Qed.

(** X5: within a machine group the players are numbered from 1 in the order
    of their assignments, whatever the other groups hold: the text of a group
    extended by one assignment is the text of the group followed by the line
    of the new player, numbered with the size of the extended group. *)
Theorem players_numbered_in_order (assignments : list Assignment) (a : Assignment) :
  players_text [] = ""
  /\ players_text (assignments ++ [a])
     = players_text assignments
       +:+ ("• Player " +:+ decimal (Z.of_nat (length (assignments ++ [a]))) +:+ ": *"
            +:+ default "Unknown Player" (player_name a) +:+ "*" +:+ nl).
Proof.
  split; [reflexivity |].
  assert (forall l idx text b,
            fst (players_loop idx (l ++ [a]) text b)
            = fst (players_loop idx l text b) +:+ player_line (idx + length l) a) as Hloop.
  { induction l as [|x l IH]; intros idx text b.
    - simpl. now rewrite Nat.add_0_r.
    - cbn [players_loop app length]. rewrite IH. do 2 f_equal. lia. }
  unfold players_text. rewrite Hloop. unfold player_line.
  rewrite length_app. simpl. repeat f_equal. lia.
Qed.

End GroupFacts.


Section OrderFacts.
Import Slack.

(** *** Order of the rendered lists *)

Section SortedOrder.
Context {A : Type}.
Variable key : A -> Z.

Lemma sort_by_fixes_sorted (l : list A) :
  Sorted (key_le key) l -> sort_by key l = l.
Proof.
  induction 1 as [|x l Hs IH Hhd]; [reflexivity |].
  unfold sort_by in *. simpl. rewrite IH.
  destruct Hhd as [|y l' Hxy]; [reflexivity |].
  simpl. unfold key_le in Hxy. now apply Z.leb_le in Hxy as ->.
Qed.

Lemma sort_by_twice (l : list A) : sort_by key (sort_by key l) = sort_by key l.
Proof. apply sort_by_fixes_sorted, sort_by_sorted. Qed.

Lemma sort_in_place_twice (l : loc) (heap : gmap loc (list A)) :
  sort_in_place key l (sort_in_place key l heap) = sort_in_place key l heap.
Proof.
  unfold sort_in_place. apply map_eq. intros l'.
  destruct (decide (l' = l)) as [->|Hne].
  - rewrite !lookup_alter_eq. destruct (heap !! l); simpl; [| reflexivity].
    now rewrite sort_by_twice.
  - now rewrite !lookup_alter_ne.
Qed.

Lemma strongly_sorted_lookup (l : list A) (i j : nat) (a b : A) :
  StronglySorted (key_le key) l ->
  l !! i = Some a -> l !! j = Some b -> (i < j)%nat -> key a <= key b.
Proof.
  intros Hs. revert i j. induction Hs as [|x l Hs IH Hall]; intros i j Hi Hj Hij.
  - discriminate.
  - destruct j as [|j]; [lia |]. destruct i as [|i].
    + simpl in Hi, Hj. injection Hi as <-.
      rewrite List.Forall_forall in Hall. apply Hall.
      apply list_elem_of_In. apply list_elem_of_lookup. eauto.
    + simpl in Hi, Hj. apply (IH i j); [assumption | assumption | lia].
Qed.

Lemma sort_by_order (l : list A) (i j : nat) (a b : A) :
  sort_by key l !! i = Some a -> sort_by key l !! j = Some b ->
  key a < key b -> (i < j)%nat.
Proof.
  intros Hi Hj Hlt. destruct (decide (i < j)%nat) as [|Hge]; [assumption |].
  destruct (decide (i = j)) as [->|Hne]; [rewrite Hi in Hj; injection Hj as ->; lia |].
  pose proof (strongly_sorted_lookup _ j i b a (sort_by_strongly_sorted key l) Hj Hi).
  lia.
Qed.

Lemma sorted_take_drop (l : list A) (n : nat) (a b : A) :
  StronglySorted (key_le key) l ->
  a ∈ take n l -> b ∈ drop n l -> key a <= key b.
Proof.
  intros Hs [i Hi]%list_elem_of_lookup [j Hj]%list_elem_of_lookup.
  pose proof (lookup_lt_Some _ _ _ Hi) as Hlen. rewrite length_take in Hlen.
  rewrite lookup_take_lt in Hi by lia. rewrite lookup_drop in Hj.
  apply (strongly_sorted_lookup l i (n + j) a b Hs Hi Hj). lia.
Qed.

End SortedOrder.


Lemma send_message_posts (post : Webhook) (self : SlackNotifier)
    (text : string) (blocks attachments : option (list Block)) :
  sent_posts (send_message post self text blocks attachments)
  = [build_payload self text blocks attachments].
Proof.
  unfold send_message, raise_for_status.
  destruct (post _ _) as [e|st]; [reflexivity |].
  now destruct ((400 <=? st) && (st <? 600)).
Qed.

Lemma results_text_snoc (players : list PlayerResult) (p : PlayerResult) :
  results_text (players ++ [p]) = results_text players +:+ result_line p.
Proof. unfold results_text. now rewrite fold_left_app. Qed.

(** X6: calling a notifier a second time on what the first call left
    changes nothing more: the caller's list is already sorted and stays as it
    is, and the payload posted is the same as the first time, whatever the
    network answered. *)
Theorem second_notification_changes_nothing (post post' : Webhook)
    (self : SlackNotifier) (tournament_name : string) :
  (forall heap game_results,
      let first := notify_game_results post self heap game_results tournament_name in
      let second :=
        notify_game_results post' self (fst first) game_results tournament_name in
      fst second = fst first
      /\ sent_posts (snd second) = sent_posts (snd first))
  /\ (forall heap standings top_n,
        let first :=
          notify_tournament_standings post self heap standings tournament_name top_n in
        let second :=
          notify_tournament_standings post' self (fst first) standings tournament_name
            top_n in
        fst second = fst first
        /\ sent_posts (snd second) = sent_posts (snd first)).
Proof.
  split.
  - intros heap game_results. unfold notify_game_results.
    destruct (gr_players game_results) as [l|]; simpl.
    + rewrite !send_message_posts, sort_in_place_twice. now split.
    + rewrite !send_message_posts. now split.
  - intros heap standings top_n. unfold notify_tournament_standings. simpl.
    rewrite !send_message_posts, sort_in_place_twice. now split.
Qed.

(** X7: in the list a notifier leaves and renders, an entry with a
    strictly smaller position key always comes before one with a larger key;
    so an entry without position comes after every entry placed below 999 and
    before every entry placed above 999. *)
Theorem rendered_order_follows_positions (players : list PlayerResult)
    (entries : list StandingEntry) :
  (forall i j p q,
      sort_by player_key players !! i = Some p ->
      sort_by player_key players !! j = Some q ->
      (player_key p < player_key q -> (i < j)%nat)
      /\ (forall z, pr_position p = Some z -> pr_position q = None ->
            (z < 999 -> (i < j)%nat) /\ (999 < z -> (j < i)%nat)))
  /\ (forall i j a b,
        sort_by standing_key entries !! i = Some a ->
        sort_by standing_key entries !! j = Some b ->
        (standing_key a < standing_key b -> (i < j)%nat)
        /\ (forall z, se_position a = Some z -> se_position b = None ->
              (z < 999 -> (i < j)%nat) /\ (999 < z -> (j < i)%nat))).
Proof.
  split.
  - intros i j p q Hi Hj. split; [apply (sort_by_order _ _ _ _ _ _ Hi Hj) |].
    intros z Hp Hq. split; intros Hz.
    + apply (sort_by_order _ _ _ _ _ _ Hi Hj). unfold player_key. rewrite Hp, Hq. simpl. lia.
    + apply (sort_by_order _ _ _ _ _ _ Hj Hi). unfold player_key. rewrite Hp, Hq. simpl. lia.
  - intros i j a b Hi Hj. split; [apply (sort_by_order _ _ _ _ _ _ Hi Hj) |].
    intros z Ha Hb. split; intros Hz.
    + apply (sort_by_order _ _ _ _ _ _ Hi Hj). unfold standing_key. rewrite Ha, Hb. simpl. lia.
    + apply (sort_by_order _ _ _ _ _ _ Hj Hi). unfold standing_key. rewrite Ha, Hb. simpl. lia.
Qed.

(** X8: the game-results message lists the players of the caller's list in
    its sorted order, one line per player, under the machine and round of the
    dict or ["Unknown Machine"] and ["Unknown Round"] when they are missing. *)
Theorem game_results_lists_sorted_players (post : Webhook) (self : SlackNotifier)
    (heap : gmap loc (list PlayerResult)) (game_results : GameResults)
    (tournament_name : string) (l : loc) (players : list PlayerResult) :
  gr_players game_results = Some l ->
  heap !! l = Some players ->
  let machine := default "Unknown Machine" (gr_machine_name game_results) in
  let round_name := default "Unknown Round" (gr_round_name game_results) in
  exists payload,
    sent_posts (snd (notify_game_results post self heap game_results tournament_name))
    = [payload]
    /\ pl_text payload = "Game Results - " +:+ machine +:+ " - " +:+ tournament_name
    /\ pl_blocks payload
       = Some (game_blocks machine round_name tournament_name
                 (sort_by player_key players))
    /\ results_text [] = ""
    /\ forall shown p, results_text (shown ++ [p]) = results_text shown +:+ result_line p.
Proof.
  intros Hl Hheap machine round_name. eexists. split.
  { unfold notify_game_results. rewrite Hl. simpl. apply send_message_posts. }
  destruct (sort_in_place_lookup player_key heap l players Hheap) as (_ & -> & _).
  repeat split. apply results_text_snoc.
Qed.

(** X9: whatever [top_n] is, the standings shown are an initial part of the
    sorted list, and no entry left out has a smaller position key than an
    entry shown; a negative [top_n] leaves out the last [-top_n] entries (all
    of them when the list is shorter), a non-negative one everything after
    the first [top_n]. *)
Theorem shown_standings_are_the_best (heap : gmap loc (list StandingEntry))
    (standings : loc) (top_n : Z) (entries : list StandingEntry) :
  heap !! standings = Some entries ->
  exists omitted,
    sort_by standing_key entries = top_standings heap standings top_n ++ omitted
    /\ (forall a b, a ∈ top_standings heap standings top_n -> b ∈ omitted ->
          standing_key a <= standing_key b)
    /\ (top_n < 0 ->
        Z.of_nat (length omitted) = Z.min (- top_n) (Z.of_nat (length entries)))
    /\ (0 <= top_n ->
        Z.of_nat (length omitted) = Z.max 0 (Z.of_nat (length entries) - top_n)).
Proof.
  intros Hheap.
  destruct (sort_in_place_lookup standing_key heap standings entries Hheap)
    as (_ & Hderef & _).
  assert (length (sort_by standing_key entries) = length entries) as Hlen
    by apply Permutation_length, sort_by_perm.
  unfold top_standings, slice_to. rewrite Hderef, Hlen.
  set (n := if top_n <? 0 then Z.to_nat (Z.of_nat (length entries) + top_n)
            else Z.to_nat top_n).
  assert ((if top_n <? 0
           then take (Z.to_nat (Z.of_nat (length entries) + top_n))
                  (sort_by standing_key entries)
           else take (Z.to_nat top_n) (sort_by standing_key entries))
          = take n (sort_by standing_key entries)) as ->
    by (subst n; now destruct (top_n <? 0)).
  exists (drop n (sort_by standing_key entries)).
  split; [now rewrite take_drop |].
  split; [intros a b; apply sorted_take_drop, sort_by_strongly_sorted |].
  rewrite length_drop, Hlen. subst n.
  split; intros Hn; destruct (Z.ltb_spec top_n 0); lia.
Qed.

(** X10: a game-results dict without ['players'], or whose list is empty,
    leaves every object of the caller as it was and sends a message whose
    results section is empty. *)
Theorem game_results_without_players (post : Webhook) (self : SlackNotifier)
    (heap : gmap loc (list PlayerResult)) (game_results : GameResults)
    (tournament_name : string) :
  gr_players game_results = None
  \/ (exists l, gr_players game_results = Some l /\ heap !! l = Some []) ->
  let machine := default "Unknown Machine" (gr_machine_name game_results) in
  let round_name := default "Unknown Round" (gr_round_name game_results) in
  fst (notify_game_results post self heap game_results tournament_name) = heap
  /\ exists payload,
       sent_posts (snd (notify_game_results post self heap game_results tournament_name))
       = [payload]
       /\ pl_blocks payload
          = Some [ Header "🏆 Game Results";
                   SectionBlock ("*Tournament:* " +:+ tournament_name +:+ nl
                                 +:+ "*Round:* " +:+ round_name +:+ nl
                                 +:+ "*Machine:* " +:+ machine);
                   Divider;
                   SectionBlock "" ].
Proof.
  intros Hcase machine round_name. unfold notify_game_results.
  destruct Hcase as [-> | [l [-> Hl]]]; simpl.
  - split; [reflexivity |]. eexists. split; [apply send_message_posts | reflexivity].
  - destruct (sort_in_place_lookup player_key heap l [] Hl) as (Hsame & -> & Hother).
    split.
    + apply map_eq. intros l'. destruct (decide (l' = l)) as [->|Hne].
      * now rewrite Hsame, Hl.
      * now apply Hother.
    + eexists. split; [apply send_message_posts | reflexivity].
Qed.

End OrderFacts.


Section UpNextFacts.
Import Slack.

(** *** The direct notification *)

Lemma numbered_tips_snoc (tips : list string) (tip : string) (i : nat) (text : string) :
  numbered_tips i (tips ++ [tip]) text
  = numbered_tips i tips text
    +:+ decimal (Z.of_nat (i + length tips) + 1) +:+ ". " +:+ tip +:+ nl.
Proof.
  revert i text. induction tips as [|t tips IH]; intros i text.
  - simpl. now rewrite Nat.add_0_r.
  - cbn [numbered_tips app length]. rewrite IH.
    now replace (S i + length tips)%nat with (i + S (length tips))%nat by lia.
Qed.

(** X11: [notify_player_up_next] sends two to four blocks: the header and
    the game section always, an opponents section exactly when
    ['opponents'] is a non-empty list, a tips section exactly when
    ['pintips'] is a non-empty list, in that order; a missing key counts as
    an empty list, and the tips section is decided by the game details
    themselves. *)
Theorem up_next_sections (player_name tournament_name : string)
    (game_details : GameDetails) :
  let opponents := default [] (gd_opponents game_details) in
  let pintips := default [] (gd_pintips game_details) in
  exists header game_section,
    up_next_blocks player_name game_details tournament_name
    = [header; game_section]
      ++ (if bool_decide (opponents = []) then []
          else [SectionBlock (opponents_text opponents)])
      ++ (if bool_decide (pintips = []) then []
          else [SectionBlock (machine_tips_text pintips)])
    /\ (2 <= length (up_next_blocks player_name game_details tournament_name) <= 4)%nat
    /\ (length (up_next_blocks player_name game_details tournament_name) = 2%nat
        <-> opponents = [] /\ pintips = []).
Proof.
  intros opponents pintips. subst opponents pintips. unfold up_next_blocks.
  do 2 eexists.
  destruct (default [] (gd_opponents game_details)) as [|o os],
           (default [] (gd_pintips game_details)) as [|t ts]; simpl;
    (split; [reflexivity |]); (split; [lia |]); split; try done; intros [? ?]; done.
Qed.

(** X12: the tips of [notify_player_up_next] are numbered from 1 in their
    order and never more than three are shown: up to the third, a further tip
    adds the next numbered line; from the third on, further tips change
    nothing. *)
Theorem up_next_tips_numbered (tips : list string) (tip : string) :
  ((length tips < 3)%nat ->
     machine_tips_text (tips ++ [tip])
     = machine_tips_text tips
       +:+ decimal (Z.of_nat (length tips) + 1) +:+ ". " +:+ tip +:+ nl)
  /\ ((3 <= length tips)%nat ->
        forall more, machine_tips_text (tips ++ more) = machine_tips_text tips).
Proof.
  unfold machine_tips_text. split.
  - intros Hlen. rewrite take_app_ge by lia. rewrite (take_ge tips) by lia.
    destruct (3 - length tips)%nat eqn:Hleft; [lia |].
    cbn [take]. rewrite take_nil. now rewrite numbered_tips_snoc.
  - intros Hlen more. now rewrite take_app_le by lia.
Qed.

(** *** Every notifier posts once *)

Lemma send_message_ok (post : Webhook) (self : SlackNotifier)
    (text : string) (blocks attachments : option (list Block)) :
  sent_ok (send_message post self text blocks attachments) = true
  <-> exists st,
        post (webhook_url self) (build_payload self text blocks attachments)
        = PostResponse st
        /\ ~ (400 <= st < 600).
Proof.
  unfold send_message, raise_for_status.
  destruct (post _ _) as [e|st]; simpl.
  - split; [discriminate | intros [st [[=] _]]].
  - destruct (Z.leb_spec 400 st), (Z.ltb_spec st 600); simpl;
      split; try discriminate;
      try (intros _; exists st; split; [reflexivity | lia]);
      try (intros [st' [[= <-] Hst]]; lia); try reflexivity.
Qed.

Lemma send_message_posts_once (post : Webhook) (self : SlackNotifier)
    (text : string) (blocks : list Block) :
  blocks <> [] ->
  posts_once post self (send_message post self text (Some blocks) None) text blocks.
Proof.
  intros Hne. exists (build_payload self text (Some blocks) None).
  split; [apply send_message_posts |]. split; [reflexivity |].
  split; [now destruct blocks |]. split; [reflexivity | apply send_message_ok].
Qed.

End UpNextFacts.


Section TextFacts.
Import Slack.
Local Arguments String.append : simpl nomatch.

(** *** Texts *)

Lemma uint_digits_no_comma (d : Decimal.uint) :
  List.forallb not_comma (list_ascii_of_string (NilEmpty.string_of_uint d)) = true.
Proof. induction d; simpl; auto. Qed.

Lemma decimal_abs_no_comma (z : Z) :
  List.forallb not_comma (list_ascii_of_string (decimal (Z.abs z))) = true.
Proof.
  unfold decimal. destruct z as [|p|p]; simpl; [reflexivity | |];
    (destruct (Pos.to_uint p) eqn:Hp; [reflexivity | rewrite <- Hp ..];
     unfold NilZero.string_of_uint; rewrite Hp; rewrite <- Hp;
     apply uint_digits_no_comma).
Qed.

Lemma decimal_sign (z : Z) :
  z < 0 -> decimal z = String "-"%char (decimal (Z.abs z)).
Proof. destruct z; intros Hz; try lia. reflexivity. Qed.

Lemma group3_keeps_digits (n : nat) (l : list ascii) :
  (length l <= n)%nat ->
  List.forallb not_comma l = true ->
  List.filter not_comma (group3 l) = l
  /\ length (group3 l) = (length l + (length l - 1) / 3)%nat.
Proof.
  revert l. induction n as [n IH] using lt_wf_ind. intros l Hlen Hall.
  destruct l as [|a [|b [|c rest]]]; try (simpl in *; split; [now rewrite ?Hall | reflexivity]).
  - simpl in *. apply andb_true_iff in Hall as [-> _]. now split.
  - simpl in *. apply andb_true_iff in Hall as [-> Hall].
    apply andb_true_iff in Hall as [-> _]. now split.
  - cbn [group3]. simpl in Hall.
    apply andb_true_iff in Hall as [Ha Hall].
    apply andb_true_iff in Hall as [Hb Hall].
    apply andb_true_iff in Hall as [Hc Hall].
    destruct rest as [|d rest'] eqn:Hrest.
    + simpl. rewrite Ha, Hb, Hc. now split.
    + rewrite <- Hrest in *.
      assert (length rest <= length rest)%nat as Hle by lia.
      destruct (IH (length rest) ltac:(simpl in Hlen; lia) rest Hle Hall) as [Hf Hl].
      split.
      * simpl. rewrite Ha, Hb, Hc. simpl. now rewrite Hf.
      * cbn [length]. rewrite Hl.
        assert (1 <= length rest)%nat as Hpos by (rewrite Hrest; simpl; lia).
        replace (S (S (S (length rest))) - 1)%nat with (length rest - 1 + 1 * 3)%nat by lia.
        rewrite Nat.div_add by lia. lia.
Qed.


Lemma string_length_list (s : string) :
  String.length s = length (list_ascii_of_string s).
Proof. induction s as [|c s IH]; simpl; [reflexivity | now rewrite IH]. Qed.

(** X13: the score of a result line, [f"{score:,}"], is the decimal writing
    of the score with commas put in: taking the commas out gives back the
    decimal writing, sign included, and [n] digits come with [(n - 1) / 3]
    commas. *)
Theorem score_commas_round_trip (z : Z) :
  remove_commas (format_thousands z) = decimal z
  /\ String.length (format_thousands z)
     = (String.length (decimal z) + (String.length (decimal (Z.abs z)) - 1) / 3)%nat.
Proof.
  pose proof (decimal_abs_no_comma z) as Hdigits.
  set (digits := list_ascii_of_string (decimal (Z.abs z))) in *.
  assert (List.forallb not_comma (rev digits) = true) as Hrev.
  { rewrite List.forallb_forall in *. intros c Hc. apply Hdigits.
    now apply List.in_rev in Hc. }
  destruct (group3_keeps_digits (length (rev digits)) (rev digits) (le_n _) Hrev)
    as [Hkeep Hcount].
  assert (remove_commas (string_of_list_ascii (rev (group3 (rev digits))))
          = decimal (Z.abs z)) as Hround.
  { unfold remove_commas. rewrite list_ascii_of_string_of_list_ascii.
    rewrite List.filter_rev, Hkeep, List.rev_involutive. subst digits.
    apply string_of_list_ascii_of_string. }
  assert (String.length (string_of_list_ascii (rev (group3 (rev digits))))
          = (String.length (decimal (Z.abs z))
             + (String.length (decimal (Z.abs z)) - 1) / 3)%nat) as Hlen.
  { rewrite !string_length_list, list_ascii_of_string_of_list_ascii.
    fold digits. now rewrite List.length_rev, Hcount, List.length_rev. }
  unfold format_thousands. fold digits.
  destruct (Z.ltb_spec z 0) as [Hneg|Hpos].
  - rewrite (decimal_sign z Hneg). split.
    + unfold remove_commas in *. simpl. now rewrite Hround.
    + simpl. now rewrite Hlen.
  - replace (Z.abs z) with z in * by lia. now split.
Qed.

(** *** The success log line *)

Lemma utf8_take_prefix (n : nat) (s : string) :
  exists rest,
    s = utf8_take n s +:+ rest
    /\ utf8_length (utf8_take n s) = Nat.min n (utf8_length s)
    /\ match rest with
       | EmptyString => True
       | String c _ => is_continuation c = false
       end.
Proof.
  revert n. induction s as [|c s IH]; intros n.
  - exists EmptyString. simpl. repeat split. now rewrite Nat.min_0_r.
  - simpl. destruct (is_continuation c) eqn:Hc.
    + destruct (IH n) as [rest (Hs & Hlen & Hrest)]. exists rest. simpl.
      rewrite Hc. repeat split; [now rewrite <- Hs | exact Hlen | exact Hrest].
    + destruct n as [|n].
      * exists (String c s). simpl. repeat split. exact Hc.
      * destruct (IH n) as [rest (Hs & Hlen & Hrest)]. exists rest. simpl.
        rewrite Hc. repeat split; [now rewrite <- Hs | now rewrite Hlen | exact Hrest].
Qed.

(** X14: when the POST is answered with a status outside 400-599,
    [send_message] writes one information line, which quotes the text of the
    message cut after its first 50 code points, never inside one, and
    followed by three dots. *)
Theorem success_log_quotes_50_characters (post : Webhook) (self : SlackNotifier)
    (text : string) (blocks attachments : option (list Block)) (st : Z) :
  post (webhook_url self) (build_payload self text blocks attachments) = PostResponse st ->
  ~ (400 <= st < 600) ->
  exists shown rest,
    sent_log (send_message post self text blocks attachments)
    = [LogInfo ("Message sent successfully to Slack: " +:+ shown +:+ "...")]
    /\ text = shown +:+ rest
    /\ utf8_length shown = Nat.min 50 (utf8_length text)
    /\ match rest with
       | EmptyString => True
       | String c _ => is_continuation c = false
       end.
Proof.
  intros Hpost Hst. destruct (utf8_take_prefix 50 text) as [rest (Htext & Hlen & Hrest)].
  exists (utf8_take 50 text), rest.
  split; [| repeat split; assumption].
  unfold send_message, raise_for_status. rewrite Hpost.
  destruct (Z.leb_spec 400 st), (Z.ltb_spec st 600); simpl; try reflexivity. lia.
Qed.

(** X15: each of the four notifiers ends in one call of [send_message]: it
    makes exactly one POST, whose payload has the notifier's fallback text,
    its blocks (never an empty list, so never left out) and no attachments,
    and it returns [True] exactly when the response status is outside
    400-599; [notify_round_start] never raises. *)
Theorem notifiers_post_once (post : Webhook) (self : SlackNotifier)
    (tournament_name : string) :
  (forall heap game_results,
      exists blocks,
        posts_once post self
          (snd (notify_game_results post self heap game_results tournament_name))
          ("Game Results - " +:+ default "Unknown Machine" (gr_machine_name game_results)
           +:+ " - " +:+ tournament_name)
          blocks
        /\ length blocks = 4%nat)
  /\ (forall heap standings top_n,
        exists blocks,
          posts_once post self
            (snd (notify_tournament_standings post self heap standings tournament_name top_n))
            ("Current Tournament Standings - " +:+ tournament_name)
            blocks
          /\ length blocks = 5%nat)
  /\ (forall player_name game_details,
        posts_once post self
          (notify_player_up_next post self player_name game_details tournament_name)
          ("You're up next on "
           +:+ default "Unknown Machine" (gd_machine_name game_details)
           +:+ " - " +:+ tournament_name)
          (up_next_blocks player_name game_details tournament_name))
  /\ (forall round_name player_assignments,
        exists out blocks,
          notify_round_start post self round_name player_assignments tournament_name
          = Return out
          /\ round_blocks round_name player_assignments tournament_name = Return blocks
          /\ posts_once post self out
               ("New Round Starting: " +:+ round_name +:+ " - " +:+ tournament_name)
               blocks).
Proof.
  split; [| split; [| split]].
  - intros heap game_results. unfold notify_game_results.
    destruct (gr_players game_results); simpl; eexists;
      (split; [apply send_message_posts_once; discriminate | reflexivity]).
  - intros heap standings top_n. eexists. unfold notify_tournament_standings. simpl.
    split; [apply send_message_posts_once; discriminate | reflexivity].
  - intros player_name game_details. unfold notify_player_up_next.
    apply send_message_posts_once. unfold up_next_blocks. discriminate.
  - intros round_name player_assignments. unfold notify_round_start.
    rewrite round_blocks_rendering. do 2 eexists. split; [reflexivity |].
    split; [reflexivity |]. apply send_message_posts_once.
    unfold round_header. discriminate.
Qed.

End TextFacts.


(** * Further properties of the URL identifier extraction *)

Section MoreUrlFacts.
Import Url.
Variable decimal : Z -> option Z.
Variable max_str_digits : Z.

Lemma int_acc_nonneg (ds : list Z) (acc : Z) :
  (forall c d, decimal c = Some d -> 0 <= d <= 9) ->
  0 <= acc -> 0 <= int_acc decimal acc ds.
Proof.
  intros Hrange. revert acc. induction ds as [|c ds IH]; intros acc Hacc; [exact Hacc |].
  simpl. apply IH. unfold digit_value.
  destruct (decimal c) as [d|] eqn:Hc; simpl; [| lia].
  pose proof (Hrange c d Hc). lia.
Qed.

Lemma strip_prefix_app (p s rest t : list Z) :
  strip_prefix p s = Some rest -> strip_prefix p (s ++ t) = Some (rest ++ t).
Proof.
  intros ->%strip_prefix_Some. apply strip_prefix_Some. now rewrite app_assoc.
Qed.

Lemma strip_prefix_app_None (p s t : list Z) :
  strip_prefix p s = None -> (length p <= length s)%nat ->
  strip_prefix p (s ++ t) = None.
Proof.
  revert s. induction p as [|a p IH]; intros s; [discriminate |].
  destruct s as [|b s]; simpl; [lia |].
  destruct (a =? b); [| reflexivity].
  intros Hs Hlen. apply IH; [assumption | lia].
Qed.

Lemma take_digits_app (rest t : list Z) :
  no_leading_digit decimal t ->
  take_digits decimal (rest ++ t) = take_digits decimal rest.
Proof.
  intros Ht. induction rest as [|c rest IH]; simpl.
  - destruct t as [|d t]; simpl in *; [reflexivity | now rewrite Ht].
  - destruct (is_digit decimal c); [now rewrite IH | reflexivity].
Qed.

Lemma take_digits_app_empty (rest t : list Z) :
  take_digits decimal rest = [] -> rest <> [] -> take_digits decimal (rest ++ t) = [].
Proof.
  destruct rest as [|c rest]; [congruence |]. simpl.
  now destruct (is_digit decimal c).
Qed.

Lemma match_here_app (s ds t : list Z) :
  match_here decimal s = Some ds -> no_leading_digit decimal t ->
  match_here decimal (s ++ t) = Some ds.
Proof.
  unfold match_here. intros Hm Ht.
  destruct (strip_prefix tournaments_prefix s) as [rest|] eqn:Hp; [| discriminate].
  rewrite (strip_prefix_app _ _ _ t Hp), take_digits_app by assumption. exact Hm.
Qed.

Lemma prefix_length : length tournaments_prefix = 13%nat.
Proof. reflexivity. Qed.

Lemma match_here_length (s ds : list Z) :
  match_here decimal s = Some ds -> (14 <= length s)%nat.
Proof.
  unfold match_here.
  destruct (strip_prefix tournaments_prefix s) as [rest|] eqn:Hp; [| discriminate].
  apply strip_prefix_Some in Hp as ->.
  destruct rest as [|c rest]; [discriminate |]. intros _.
  rewrite length_app, prefix_length. simpl. lia.
Qed.

Lemma search_length (s ds : list Z) :
  search decimal s = Some ds -> (14 <= length s)%nat.
Proof.
  induction s as [|c s IH]; cbn [search].
  - discriminate.
  - destruct (match_here decimal (c :: s)) eqn:Hm.
    + intros _. now apply match_here_length in Hm.
    + intros Hs. apply IH in Hs. simpl. lia.
Qed.

Lemma match_here_app_None (s t : list Z) :
  match_here decimal s = None -> (14 <= length s)%nat ->
  match_here decimal (s ++ t) = None.
Proof.
  unfold match_here. intros Hm Hlen.
  destruct (strip_prefix tournaments_prefix s) as [rest|] eqn:Hp.
  - rewrite (strip_prefix_app _ _ _ t Hp).
    destruct (take_digits decimal rest) eqn:Hd; [| discriminate].
    rewrite take_digits_app_empty; [reflexivity | assumption |].
    intros ->. apply strip_prefix_Some in Hp as ->.
    rewrite length_app, prefix_length in Hlen. simpl in Hlen. lia.
  - rewrite strip_prefix_app_None; [reflexivity | assumption |].
    rewrite prefix_length. lia.
Qed.

Lemma search_app (s ds t : list Z) :
  search decimal s = Some ds -> no_leading_digit decimal t ->
  search decimal (s ++ t) = Some ds.
Proof.
  intros Hs Ht. induction s as [|c s IH].
  - discriminate.
  - cbn [search] in Hs. rewrite <- app_comm_cons. cbn [search].
    rewrite app_comm_cons.
    destruct (match_here decimal (c :: s)) as [d|] eqn:Hm.
    + now rewrite (match_here_app _ _ t Hm Ht).
    + pose proof (search_length _ _ Hs) as Hlen.
      rewrite match_here_app_None; [now apply IH | assumption | simpl; lia].
Qed.

Lemma search_at_start (u : list Z) :
  take_digits decimal u <> [] ->
  search decimal (tournaments_prefix ++ u) = Some (take_digits decimal u).
Proof.
  intros Hu.
  assert (match_here decimal (tournaments_prefix ++ u) = Some (take_digits decimal u)) as Hm.
  { unfold match_here.
    assert (strip_prefix tournaments_prefix (tournaments_prefix ++ u) = Some u) as ->
      by now apply strip_prefix_Some.
    destruct (take_digits decimal u); [congruence | reflexivity]. }
  destruct (tournaments_prefix ++ u) eqn:Heq; cbn [search]; now rewrite Hm.
Qed.

(** X16: an identifier extracted from a URL is never negative, and a
    leading zero does not count: a URL that starts with [/tournaments/0]
    followed by further digits gives what it gives without that zero, as
    long as the run with its zero is one [int] converts. *)
Theorem extracted_id_is_a_natural_number (url tail : list Z) (n : Z) :
  (forall c d, decimal c = Some d -> 0 <= d <= 9) ->
  (extract_tournament_id decimal max_str_digits (PyStr url) = Return (Some n) -> 0 <= n)
  /\ (decimal 48 = Some 0 ->
      take_digits decimal tail <> [] ->
      within_limit max_str_digits (48 :: take_digits decimal tail) = true ->
      extract_tournament_id decimal max_str_digits
        (PyStr (code_points "/tournaments/" ++ 48 :: tail))
      = extract_tournament_id decimal max_str_digits
          (PyStr (code_points "/tournaments/" ++ tail))).
Proof.
  intros Hrange. split.
  - rewrite extract_str. destruct (search decimal url) as [ds|]; [| discriminate].
    destruct (within_limit max_str_digits ds); [| discriminate].
    intros [= <-]. apply int_acc_nonneg; [assumption | lia].
  - intros Hzero Hd Hw. rewrite !extract_str.
    fold tournaments_prefix.
    assert (take_digits decimal (48 :: tail) = 48 :: take_digits decimal tail) as Hrun
      by (simpl; unfold is_digit; now rewrite Hzero).
    rewrite (search_at_start (48 :: tail)) by (rewrite Hrun; discriminate).
    rewrite (search_at_start tail) by assumption.
    rewrite Hrun, Hw.
    assert (within_limit max_str_digits (take_digits decimal tail) = true) as ->.
    { unfold within_limit in *. apply orb_true_iff in Hw. apply orb_true_iff.
      rewrite !Z.leb_le in *. simpl length in Hw. lia. }
    simpl. unfold digit_value. rewrite Hzero. reflexivity.
Qed.

(** X17: what follows the identifier does not matter: when a URL yields an
    identifier, the URL extended by any text that does not start with a
    decimal digit yields the same identifier. *)
Theorem extraction_ignores_what_follows (url suffix : list Z) (n : Z) :
  extract_tournament_id decimal max_str_digits (PyStr url) = Return (Some n) ->
  no_leading_digit decimal suffix ->
  extract_tournament_id decimal max_str_digits (PyStr (url ++ suffix)) = Return (Some n).
Proof.
  rewrite !extract_str. intros Hn Hsuffix.
  destruct (search decimal url) as [ds|] eqn:Hs; [| discriminate].
  now rewrite (search_app _ _ _ Hs Hsuffix).
Qed.

End MoreUrlFacts.


(** * Further properties of the configuration loading *)

Section MoreConfigFacts.
Import Config.


End MoreConfigFacts.


(** * Further instances *)

Section MoreInstances.
Import Url Slack.

Lemma rendered_order_follows_positions_witness :
  let unplaced := mkPlayerResult None (Some "Cy") None in
  let third := mkPlayerResult (Some 3) (Some "Ann") (Some 100) in
  sort_by player_key [unplaced; third] !! 0%nat = Some third
  /\ sort_by player_key [unplaced; third] !! 1%nat = Some unplaced
  /\ (0 < 1)%nat.
Proof.
  intros unplaced third.
  assert (sort_by player_key [unplaced; third] !! 0%nat = Some third) as H0
    by reflexivity.
  assert (sort_by player_key [unplaced; third] !! 1%nat = Some unplaced) as H1
    by reflexivity.
  split; [exact H0 |]. split; [exact H1 |].
  destruct (rendered_order_follows_positions [unplaced; third] []) as [Hplayers _].
  destruct (Hplayers 0%nat 1%nat third unplaced H0 H1) as [_ Hmissing].
  apply (Hmissing 3); [reflexivity | reflexivity | lia].
Defined.

Lemma game_results_lists_sorted_players_witness :
  let post : Webhook := fun _ _ => PostResponse 200 in
  let self := mkNotifier "https://hooks.slack.com/services/T" None in
  let second := mkPlayerResult (Some 2) (Some "Ann") (Some 1500) in
  let first := mkPlayerResult (Some 1) (Some "Bob") (Some 2500000) in
  let heap : gmap loc (list PlayerResult) := {[ 7%nat := [second; first] ]} in
  exists payload,
    sent_posts (snd (notify_game_results post self heap
                       (mkGameResults (Some "Jaws") None (Some 7%nat)) "Open"))
    = [payload]
    /\ pl_blocks payload
       = Some (game_blocks "Jaws" "Unknown Round" "Open" [first; second]).
Proof.
  intros post self second first heap.
  destruct (game_results_lists_sorted_players post self heap
              (mkGameResults (Some "Jaws") None (Some 7%nat)) "Open" 7%nat
              [second; first] eq_refl eq_refl)
    as [payload (Hposts & _ & Hblocks & _)].
  exists payload. split; [exact Hposts | exact Hblocks].
Defined.

Lemma shown_standings_are_the_best_witness :
  let a := mkStandingEntry (Some 1) (Some "Ann") (Some 12) (Some 3) in
  let b := mkStandingEntry (Some 2) (Some "Bob") (Some 9) (Some 3) in
  let c := mkStandingEntry None (Some "Cy") None None in
  let heap : gmap loc (list StandingEntry) := {[ 0%nat := [c; b; a] ]} in
  exists omitted,
    sort_by standing_key [c; b; a] = top_standings heap 0%nat (-2) ++ omitted
    /\ Z.of_nat (length omitted) = 2.
Proof.
  intros a b c heap.
  destruct (shown_standings_are_the_best heap 0%nat (-2) [c; b; a] eq_refl)
    as [omitted (Hsplit & _ & Hneg & _)].
  exists omitted. split; [exact Hsplit |]. rewrite Hneg by lia. reflexivity.
Defined.

Lemma game_results_without_players_witness :
  let post : Webhook := fun _ _ => PostResponse 200 in
  let self := mkNotifier "https://hooks.slack.com/services/T" None in
  let heap : gmap loc (list PlayerResult) := {[ 1%nat := [mkPlayerResult (Some 1) None None] ]} in
  fst (notify_game_results post self heap (mkGameResults None None None) "Open") = heap.
Proof.
  intros post self heap.
  destruct (game_results_without_players post self heap (mkGameResults None None None) "Open")
    as [Hheap _]; [left; reflexivity | exact Hheap].
Defined.

Lemma up_next_tips_numbered_witness :
  machine_tips_text (["one"; "two"] ++ ["three"])
  = machine_tips_text ["one"; "two"] +:+ decimal 3 +:+ ". " +:+ "three" +:+ nl.
Proof.
  destruct (up_next_tips_numbered ["one"; "two"] "three") as [Hnext _].
  apply Hnext. simpl. lia.
Defined.

Lemma success_log_quotes_50_characters_witness :
  let post : Webhook := fun _ _ => PostResponse 204 in
  let self := mkNotifier "https://hooks.slack.com/services/T" None in
  exists shown rest,
    sent_log (send_message post self "Finale é" None None)
    = [LogInfo ("Message sent successfully to Slack: " +:+ shown +:+ "...")]
    /\ "Finale é" = shown +:+ rest
    /\ utf8_length shown = Nat.min 50 8.
Proof.
  intros post self.
  destruct (success_log_quotes_50_characters post self "Finale é" None None 204)
    as [shown [rest (Hlog & Htext & Hlen & _)]]; [reflexivity | lia |].
  exists shown, rest. repeat split; assumption.
Defined.

Lemma extracted_id_is_a_natural_number_witness :
  Url.extract_tournament_id Url.basic_decimal 4300
    (PyStr (Url.code_points "https://matchplay.events/tournaments/42")) = Return (Some 42)
  /\ 0 <= 42.
Proof.
  assert (Url.extract_tournament_id Url.basic_decimal 4300
            (PyStr (Url.code_points "https://matchplay.events/tournaments/42"))
          = Return (Some 42)) as Hid by (vm_compute; reflexivity).
  split; [exact Hid |].
  destruct (extracted_id_is_a_natural_number Url.basic_decimal 4300
              (Url.code_points "https://matchplay.events/tournaments/42") [] 42
              basic_decimal_range) as [Hnat _].
  exact (Hnat Hid).
Defined.

Lemma extraction_ignores_what_follows_witness :
  Url.extract_tournament_id Url.basic_decimal 4300
    (PyStr (Url.code_points "https://matchplay.events/tournaments/42"
            ++ Url.code_points "/standings?x=1"))
  = Return (Some 42).
Proof.
  apply (extraction_ignores_what_follows Url.basic_decimal 4300
           (Url.code_points "https://matchplay.events/tournaments/42")
           (Url.code_points "/standings?x=1") 42);
    vm_compute; reflexivity.
Defined.


End MoreInstances.
